(** * Tic-tac-toe backend: rule engine and room registry

    A shallow embedding of [api/game_logic.py] ([make_move], [check_winner]),
    of the records of [api/models.py] it works on, and of the game-room part
    of [api/store.py] ([create_game], [join_game], [get_game], [save_game]).

    Python values are modelled as follows.
    - [str] is [string]; truthiness of a string is non-emptiness.
    - [int] is [Z].
    - [Optional[str]] is [option string].
    - a Python list is a [list]; [l[i]] with a constant or checked index is
      stdpp's lookup, with [IndexError] raised where Python raises it.
    - a raised exception is the left injection of a sum; the room object,
      which [make_move] mutates in place, is threaded explicitly, so that a
      call returns the room as it is after the call together with either the
      exception or the returned value. *)

From stdpp Require Import base option list strings gmap fin_maps sorting.
From Stdlib Require Import ZArith Lia.

Local Open Scope string_scope.
Local Open Scope list_scope.
Local Open Scope nat_scope.

(** ** Exceptions *)

Inductive exn : Type :=
| ValueError (msg : string)
| IndexError.

Definition result (A : Type) : Type := (exn + A)%type.

Definition Ok {A} (a : A) : result A := inr a.
Definition raise {A} (e : exn) : result A := inl e.

Definition bind {A B} (m : result A) (k : A → result B) : result B :=
  match m with
  | inl e => inl e
  | inr a => k a
  end.

Notation "'do' x <- m ; k" := (bind m (fun x => k))
  (at level 10, x name, m at level 100, k at level 200).

(** The four messages of [make_move], named after the failures of the
    rule engine. *)
Definition GameFinished : exn := ValueError "Game already finished.".
Definition OutOfTurn : exn := ValueError "Not your turn.".
Definition OutOfBounds : exn := ValueError "Invalid board position.".
Definition CellOccupied : exn := ValueError "Cell already occupied.".

(** The messages of [InMemoryStore.join_game]. *)
Definition RoomNotFound : exn := ValueError "Game room not found".
Definition RoomFull : exn := ValueError "Game already has two players".
Definition AlreadyJoined : exn := ValueError "Player already in game".
Definition RoomFinished : exn := ValueError "Game already finished".

(** ** Data model ([models.py]) *)

Record UserPublic : Type := mkUser {
  username : string;
  id : Z
}.

(** One entry of [GameRoom.moves]: [{"player": .., "row": .., "col": ..}]. *)
Record Move : Type := mkMove {
  player : string;
  row : Z;
  col : Z
}.

Abbreviation Board := (list (list string)).

Record GameState : Type := mkState {
  st_board : Board;
  st_next_turn : option string;
  st_winner : option string;
  st_finished : bool
}.

(** [GameRoom.next_turn] is annotated [str]; it is kept as an optional
    value here so that "no next mover" can be expressed at all.  The code
    only ever stores a string in it. *)
Record GameRoom : Type := mkRoom {
  room_id : string;
  players : list UserPublic;
  board : Board;
  next_turn : option string;
  finished : bool;
  winner : option string;
  moves : list Move
}.

(** Attribute assignments [game.f = v]. *)
Definition set_board (b : Board) (g : GameRoom) : GameRoom :=
  mkRoom (room_id g) (players g) b (next_turn g) (finished g) (winner g) (moves g).
Definition set_moves (ms : list Move) (g : GameRoom) : GameRoom :=
  mkRoom (room_id g) (players g) (board g) (next_turn g) (finished g) (winner g) ms.
Definition set_finished (f : bool) (g : GameRoom) : GameRoom :=
  mkRoom (room_id g) (players g) (board g) (next_turn g) f (winner g) (moves g).
Definition set_winner (w : option string) (g : GameRoom) : GameRoom :=
  mkRoom (room_id g) (players g) (board g) (next_turn g) (finished g) w (moves g).
Definition set_next_turn (n : option string) (g : GameRoom) : GameRoom :=
  mkRoom (room_id g) (players g) (board g) n (finished g) (winner g) (moves g).
Definition set_players (ps : list UserPublic) (g : GameRoom) : GameRoom :=
  mkRoom (room_id g) ps (board g) (next_turn g) (finished g) (winner g) (moves g).

(** ** Python primitives *)

(** Truthiness of a [str]. *)
Definition truthy (s : string) : bool := negb (String.eqb s "").

(** [l[i]] for a non-negative index. *)
Definition index {A} (l : list A) (i : nat) : result A :=
  match l !! i with
  | Some a => Ok a
  | None => raise IndexError
  end.

(** [l.count(x)]. *)
Definition count (x : string) (l : list string) : nat :=
  length (filter (λ y, y = x) l).

(** ** [check_winner] *)

(** [board[i][j]]. *)
Definition cell (b : Board) (i j : nat) : result string :=
  do r <- index b i; index r j.

(** The body of [for i in range(3)]: two [lines.append]. *)
Definition append_row_col (b : Board) (lines : list (list string)) (i : nat)
  : result (list (list string)) :=
  do r <- index b i;
  do c0 <- cell b 0 i;
  do c1 <- cell b 1 i;
  do c2 <- cell b 2 i;
  Ok (lines ++ [r; [c0; c1; c2]]).

Fixpoint for_range {A} (body : A → nat → result A) (acc : A) (idxs : list nat)
  : result A :=
  match idxs with
  | [] => Ok acc
  | i :: rest => do acc' <- body acc i; for_range body acc' rest
  end.

(** The list [lines] as it stands before the scanning loop. *)
Definition build_lines (b : Board) : result (list (list string)) :=
  do lines <- for_range (append_row_col b) [] (seq 0 3);
  do d0 <- cell b 0 0;
  do d1 <- cell b 1 1;
  do d2 <- cell b 2 2;
  do a0 <- cell b 0 2;
  do a1 <- cell b 1 1;
  do a2 <- cell b 2 0;
  Ok (lines ++ [[d0; d1; d2]] ++ [[a0; a1; a2]]).

(** [l[0] and l.count(l[0]) == 3]. *)
Definition line_wins (l : list string) : result bool :=
  do x <- index l 0;
  Ok (truthy x && Nat.eqb (count x l) 3).

(** [for l in lines: if ...: return l[0], True]; [None] when the loop falls
    through. *)
Fixpoint scan_lines (lines : list (list string)) : result (option string) :=
  match lines with
  | [] => Ok None
  | l :: rest =>
      do w <- line_wins l;
      if w then (do x <- index l 0; Ok (Some x)) else scan_lines rest
  end.

(** [all(cell for row in board for cell in row)]. *)
Definition board_full (b : Board) : bool := forallb truthy (concat b).

Definition check_winner (b : Board) : result (option string * bool) :=
  do lines <- build_lines b;
  do hit <- scan_lines lines;
  match hit with
  | Some x => Ok (Some x, true)
  | None => if board_full b then Ok (None, true) else Ok (None, false)
  end.

(** ** [make_move] *)

(** [username != game.next_turn]. *)
Definition is_next (u : string) (g : GameRoom) : bool :=
  match next_turn g with
  | Some n => String.eqb u n
  | None => false
  end.

(** [0 <= row < 3 and 0 <= col < 3]. *)
Definition in_bounds (r c : Z) : bool :=
  ((0 <=? r) && (r <? 3) && (0 <=? c) && (c <? 3))%Z.

(** [game.board[row][col] = symbol]. *)
Definition place (b : Board) (r c : nat) (symbol : string) : Board :=
  match b !! r with
  | Some line => <[r := <[c := symbol]> line]> b
  | None => b
  end.

(** [next_turn[0] if next_turn else username], with
    [next_turn = [u for u in usernames if u != username]]. *)
Definition other_player (g : GameRoom) (u : string) : string :=
  match filter (λ v, v ≠ u) (username <$> players g) with
  | v :: _ => v
  | [] => u
  end.

Definition make_move (game : GameRoom) (u : string) (r c : Z)
  : GameRoom * result GameState :=
  if finished game then (game, raise GameFinished)
  else if negb (is_next u game) then (game, raise OutOfTurn)
  else if negb (in_bounds r c) then (game, raise OutOfBounds)
  else
    match cell (board game) (Z.to_nat r) (Z.to_nat c) with
    | inl e => (game, inl e)
    | inr v =>
        if truthy v then (game, raise CellOccupied)
        else
          match index (players game) 0 with
          | inl e => (game, inl e)
          | inr p0 =>
              let symbol := if String.eqb u (username p0) then "X" else "O" in
              let game1 :=
                set_board (place (board game) (Z.to_nat r) (Z.to_nat c) symbol) game in
              let game2 := set_moves (moves game1 ++ [mkMove u r c]) game1 in
              match check_winner (board game2) with
              | inl e => (game2, inl e)
              | inr (w, is_finished) =>
                  let game3 :=
                    if is_finished
                    then set_winner w (set_finished true game2)
                    else set_winner None
                           (set_next_turn (Some (other_player game2 u)) game2) in
                  let game4 :=
                    if is_finished
                    then set_winner w (set_finished true game3)
                    else game3 in
                  (game4,
                   Ok (mkState (board game4)
                         (if is_finished then None else next_turn game4)
                         w is_finished))
              end
          end
    end.

(** ** The room registry ([store.py]) *)

(** [InMemoryStore.games]: room identifier to room object.  The rooms handed
    out by [get_game] are the stored objects themselves, so a mutation by
    [make_move] is a mutation of the stored room. *)
Abbreviation Store := (gmap string GameRoom).

Definition empty_board : Board := replicate 3 (replicate 3 "").

(** [create_game]; [token] stands for the value of [secrets.token_hex(4)]. *)
Definition create_game (s : Store) (token : string) (user : UserPublic)
  : Store * GameRoom :=
  let game := mkRoom token [user] empty_board (Some (username user)) false None [] in
  (<[token := game]> s, game).

Definition join_game (s : Store) (rid : string) (p : UserPublic)
  : Store * result GameRoom :=
  match s !! rid with
  | None => (s, raise RoomNotFound)
  | Some game =>
      if Nat.leb 2 (length (players game)) then (s, raise RoomFull)
      else if bool_decide (username p ∈ username <$> players game)
      then (s, raise AlreadyJoined)
      else if finished game then (s, raise RoomFinished)
      else
        let game' := set_players (players game ++ [p]) game in
        (<[rid := game']> s, Ok game')
  end.

Definition get_game (s : Store) (rid : string) : option GameRoom := s !! rid.

Definition save_game (s : Store) (game : GameRoom) : Store :=
  <[room_id game := game]> s.

(** A move request on a stored room, as both callers in [main.py] perform
    it: [get_game], then [make_move] on the stored object, whose mutation is
    therefore visible under [rid] at once, then [save_game] when no exception
    was raised.  The callers answer a missing room themselves ([None] here)
    and, before calling [make_move], turn away a user who is not a
    participant; that gate only removes calls, so it is left out. *)
Definition move_in_store (s : Store) (rid : string) (u : string) (r c : Z)
  : Store * option (result GameState) :=
  match get_game s rid with
  | None => (s, None)
  | Some game =>
      let '(game', res) := make_move game u r c in
      let s' := <[rid := game']> s in
      match res with
      | inl _ => (s', Some res)
      | inr _ => (save_game s' game', Some res)
      end
  end.

(** [get_game_state] of [main.py]: the state snapshot of a stored room. *)
Definition get_game_state (s : Store) (rid : string) : option GameState :=
  match get_game s rid with
  | None => None
  | Some game =>
      let '(w, fin) := if finished game then (winner game, true) else (None, false) in
      Some (mkState (board game) (if fin then None else next_turn game) w fin)
  end.

(** ** Vocabulary of the specification *)

Definition is_3x3 (b : Board) : Prop :=
  length b = 3 ∧ Forall (λ r, length r = 3) b.

(** The content of cell [(i, j)], the empty string outside the board. *)
Definition mark_at (b : Board) (i j : nat) : string :=
  default "" (b !! i ≫= (.!! j)).

(** The eight lines in the order row 0, column 0, row 1, column 1, row 2,
    column 2, main diagonal, anti-diagonal. *)
Definition scan_order (b : Board) : list (list string) :=
  [ [mark_at b 0 0; mark_at b 0 1; mark_at b 0 2];
    [mark_at b 0 0; mark_at b 1 0; mark_at b 2 0];
    [mark_at b 1 0; mark_at b 1 1; mark_at b 1 2];
    [mark_at b 0 1; mark_at b 1 1; mark_at b 2 1];
    [mark_at b 2 0; mark_at b 2 1; mark_at b 2 2];
    [mark_at b 0 2; mark_at b 1 2; mark_at b 2 2];
    [mark_at b 0 0; mark_at b 1 1; mark_at b 2 2];
    [mark_at b 0 2; mark_at b 1 1; mark_at b 2 0] ].

(** A line holds the mark [m] in all three cells. *)
Definition mono (m : string) (l : list string) : Prop :=
  m ≠ "" ∧ l = [m; m; m].

Definition winning_line (l : list string) : Prop := ∃ m, mono m l.

#[global] Instance winning_line_dec l : Decision (winning_line l).
Proof.
  refine (
    match l with
    | [x; y; z] => cast_if (decide (x ≠ "" ∧ y = x ∧ z = x))
    | _ => right _
    end); unfold winning_line, mono.
  all: try (intros (m & _ & ?); discriminate).
  - destruct a as (? & -> & ->). by exists x.
  - intros (m & Hm & [= -> -> ->]). by apply n.
Defined.

(** One of the 3 rows, 3 columns or 2 diagonals holds [m] in all cells. *)
Definition has_line (b : Board) (m : string) : Prop :=
  ∃ l, l ∈ scan_order b ∧ mono m l.

(** Every cell is occupied. *)
Definition occupied (b : Board) : Prop :=
  ∀ i j, i < 3 → j < 3 → mark_at b i j ≠ "".

(** Relabeling: Mark-A and Mark-B trade places. *)
Definition swap_mark (m : string) : string :=
  if String.eqb m "X" then "O" else if String.eqb m "O" then "X" else m.

Definition swap_board (b : Board) : Board :=
  fmap (M:=list) (fmap (M:=list) swap_mark) b.

(** Number of cells that hold the mark [m]. *)
Definition count_mark (m : string) (b : Board) : nat := count m (concat b).

(** The reading of the specification's [evaluate]: a win for a mark exactly
    when a line holds that mark throughout, a draw exactly when there is no
    such line and the board is full, in progress otherwise. *)
Definition evaluate_spec (b : Board) : Prop :=
  (∀ m, check_winner b = Ok (Some m, true) ↔ has_line b m) ∧
  (check_winner b = Ok (None, true) ↔ (∀ m, ¬ has_line b m) ∧ occupied b) ∧
  (check_winner b = Ok (None, false) ↔ (∀ m, ¬ has_line b m) ∧ ¬ occupied b).

(** A board on which both marks complete a line. *)
Definition two_winners : Board :=
  [["X"; "X"; "X"]; ["O"; "O"; "O"]; [""; ""; ""]].

(** A room as the model class admits it: a 3x3 board and at least one
    participant ([min_items=1]). *)
Definition wf_room (g : GameRoom) : Prop :=
  is_3x3 (board g) ∧ players g ≠ [].

(** The mover's mark: Mark-A ("X") for the first participant, Mark-B ("O")
    for anyone else. *)
Definition mark_of (g : GameRoom) (u : string) : string :=
  match players g with
  | p0 :: _ => if String.eqb u (username p0) then "X" else "O"
  | [] => "O"
  end.

(** The failure the specification prescribes for a move attempt, the four
    conditions being tried in the order in which it lists them. *)
Definition expected_failure (g : GameRoom) (u : string) (r c : Z) : option exn :=
  if finished g then Some GameFinished
  else if bool_decide (next_turn g ≠ Some u) then Some OutOfTurn
  else if bool_decide (¬ (0 ≤ r ≤ 2 ∧ 0 ≤ c ≤ 2)%Z) then Some OutOfBounds
  else if bool_decide (mark_at (board g) (Z.to_nat r) (Z.to_nat c) ≠ "")
  then Some CellOccupied
  else None.

(** The reading of the specification for a move that ends the game: the
    room is finished, carries the winner, and has no next mover. *)
Definition terminal_clears_next_turn (g : GameRoom) (u : string) (r c : Z) : Prop :=
  ∀ g' st w,
    make_move g u r c = (g', Ok st) →
    check_winner (board g') = Ok (w, true) →
    finished g' = true ∧ winner g' = w ∧ next_turn g' = None.

(** *** Reachable registries *)

(** The registries the three operations can produce, starting from the
    empty one.  Rejected calls are included: they yield the registry they
    were given. *)
Inductive reachable : Store → Prop :=
| reach_empty : reachable ∅
| reach_create s token user :
    reachable s → reachable (create_game s token user).1
| reach_join s rid p :
    reachable s → reachable (join_game s rid p).1
| reach_move s rid u r c :
    reachable s → reachable (move_in_store s rid u r c).1.

(** The same, with moves made only in rooms that have both participants. *)
Inductive reachable_duo : Store → Prop :=
| duo_empty : reachable_duo ∅
| duo_create s token user :
    reachable_duo s → reachable_duo (create_game s token user).1
| duo_join s rid p :
    reachable_duo s → reachable_duo (join_game s rid p).1
| duo_move s rid g u r c :
    reachable_duo s → s !! rid = Some g → length (players g) = 2 →
    reachable_duo (move_in_store s rid u r c).1.

(** *** Sample games *)

Definition alice : UserPublic := mkUser "alice" 1.
Definition bob : UserPublic := mkUser "bob" 2.
Definition rid0 : string := "9f3c2a71".

(** A sequence of move requests on the room [rid0]. *)
Definition play (s : Store) (ms : list (string * Z * Z)) : Store :=
  foldl (λ s' '(u, r, c), (move_in_store s' rid0 u r c).1) s ms.

Definition solo_store : Store := (create_game ∅ rid0 alice).1.
Definition duo_store : Store := (join_game solo_store rid0 bob).1.

(** Alice, alone in her room, moves twice. *)
Definition solo_twice : Store :=
  play solo_store [("alice", 0, 0); ("alice", 0, 1)]%Z.

(** The game of the specification, one move short of Alice's top row. *)
Definition before_win : Store :=
  play duo_store [("alice", 0, 0); ("bob", 1, 1); ("alice", 0, 1); ("bob", 2, 2)]%Z.

(** The same game after Alice has completed the top row. *)
Definition after_win : Store := play before_win [("alice", 0, 2)]%Z.

Definition room_of (s : Store) : GameRoom :=
  default (mkRoom "" [] [] None false None []) (s !! rid0).

(** The room [rid0] in each of these registries, evaluated. *)
Definition duo_room : GameRoom := Eval vm_compute in room_of duo_store.
Definition solo_twice_room : GameRoom := Eval vm_compute in room_of solo_twice.
Definition before_win_room : GameRoom := Eval vm_compute in room_of before_win.
Definition after_win_room : GameRoom := Eval vm_compute in room_of after_win.

(** The state snapshot returned by Alice's winning move. *)
Definition win_state : GameState :=
  Eval vm_compute in
    match (make_move before_win_room "alice" 0 2).2 with
    | inr st => st
    | inl _ => mkState [] None None false
    end.

(** *** Invariants of stored rooms *)

Definition x_count (g : GameRoom) : nat := count_mark "X" (board g).
Definition o_count (g : GameRoom) : nat := count_mark "O" (board g).

(** Holds of every room of a reachable registry: O is placed only by a
    mover other than the first participant, and such a mover gets the turn
    only after an X. *)
Definition room_inv (g : GameRoom) : Prop :=
  is_3x3 (board g) ∧
  ∃ p0 ps,
    players g = p0 :: ps ∧
    o_count g ≤ x_count g ∧
    (finished g = false → next_turn g ≠ Some (username p0) →
     o_count g + 1 ≤ x_count g).

(** Holds when every move was made with both participants present: the
    turn tells which mark is one ahead. *)
Definition duo_inv (g : GameRoom) : Prop :=
  is_3x3 (board g) ∧
  ∃ p0 ps,
    players g = p0 :: ps ∧
    NoDup (username <$> players g) ∧
    o_count g ≤ x_count g ≤ o_count g + 1 ∧
    (finished g = false →
     if decide (next_turn g = Some (username p0))
     then x_count g = o_count g
     else x_count g = o_count g + 1).

(** The reading of the specification's board invariant. *)
Definition counts_balanced (g : GameRoom) : Prop :=
  o_count g ≤ x_count g ≤ o_count g + 1.

(** Cells hold nothing but the two marks, and so does the winner field. *)
Definition is_mark_or_empty (c : string) : Prop := c = "" ∨ c = "X" ∨ c = "O".

Definition marks_inv (g : GameRoom) : Prop :=
  is_3x3 (board g) ∧
  Forall (Forall is_mark_or_empty) (board g) ∧
  (winner g = None ∨ winner g = Some "X" ∨ winner g = Some "O").

(** The reading of the specification's winner invariant: a winner is one
    of the participants, by name. *)
Definition winner_is_participant (g : GameRoom) : Prop :=
  ∀ w, winner g = Some w → w ∈ username <$> players g.

Definition store_inv (P : GameRoom → Prop) (s : Store) : Prop :=
  ∀ rid g, s !! rid = Some g → P g.

(** *** Further invariants of stored rooms *)

(** [[p.username for p in game.players]]. *)
Definition names (g : GameRoom) : list string := username <$> players g.

(** One or two participants with distinct names, a turn that names one of
    them, one log entry per mark, and flags that agree with the board. *)
Definition room_ok (g : GameRoom) : Prop :=
  1 ≤ length (players g) ≤ 2 ∧
  NoDup (names g) ∧
  (∃ u, next_turn g = Some u ∧ u ∈ names g) ∧
  length (moves g) = x_count g + o_count g ∧
  check_winner (board g) = Ok (winner g, finished g).

(** Every room is stored under its own identifier. *)
Definition keyed (s : Store) : Prop :=
  ∀ rid g, s !! rid = Some g → room_id g = rid.

(** The cells of the eight lines, in the order of [scan_order]. *)
Definition line_coords : list (list (nat * nat)) :=
  [ [(0, 0); (0, 1); (0, 2)];
    [(0, 0); (1, 0); (2, 0)];
    [(1, 0); (1, 1); (1, 2)];
    [(0, 1); (1, 1); (2, 1)];
    [(2, 0); (2, 1); (2, 2)];
    [(0, 2); (1, 2); (2, 2)];
    [(0, 0); (1, 1); (2, 2)];
    [(0, 2); (1, 1); (2, 0)] ].

(** No two different marks complete a line. *)
Definition one_winner (b : Board) : Prop :=
  ∀ m m', has_line b m → has_line b m' → m = m'.

(** The board obtained by playing a move log from the empty board, the
    creator's entries as "X" and all others as "O". *)
Definition replay (creator : string) (ms : list Move) : Board :=
  foldl (λ b m, place b (Z.to_nat (row m)) (Z.to_nat (col m))
                  (if String.eqb (player m) creator then "X" else "O"))
        empty_board ms.

(** The move log and the board tell the same story. *)
Definition log_inv (g : GameRoom) : Prop :=
  room_ok g ∧
  ∃ p0 ps,
    players g = p0 :: ps ∧
    board g = replay (username p0) (moves g) ∧
    Forall (λ m, player m ∈ names g ∧ in_bounds (row m) (col m) = true ∧
                 mark_at (board g) (Z.to_nat (row m)) (Z.to_nat (col m)) ≠ "")
           (moves g) ∧
    NoDup ((λ m, (row m, col m)) <$> moves g).

(** ** Users and the scoreboard ([store.py]) *)

(** [UserCreate] of [models.py]. *)
Record UserCreate : Type := mkUserCreate {
  uc_username : string;
  uc_password : string
}.

(** The dictionary [{"id": .., "username": .., "hashed_pw": ..}] kept per
    user. *)
Record UserObj : Type := mkUserObj {
  obj_id : Z;
  obj_username : string;
  hashed_pw : string
}.

(** [LeaderboardEntry] of [models.py]. *)
Record LeaderboardEntry : Type := mkEntry {
  lb_username : string;
  wins : Z;
  losses : Z;
  draws : Z;
  games_played : Z
}.

(** [InMemoryStore]: its four dictionaries and the user counter.  The lock
    is taken and released inside each method and has no sequential effect. *)
Record InMemoryStore : Type := mkStore {
  users : gmap string UserObj;
  user_ids : gmap Z string;
  games : Store;
  scores : gmap string LeaderboardEntry;
  user_counter : Z
}.

(** [InMemoryStore.__init__]. *)
Definition init_store : InMemoryStore := mkStore ∅ ∅ ∅ ∅ 1.

Definition set_games (gs : Store) (s : InMemoryStore) : InMemoryStore :=
  mkStore (users s) (user_ids s) gs (scores s) (user_counter s).
Definition set_scores (sc : gmap string LeaderboardEntry) (s : InMemoryStore)
  : InMemoryStore :=
  mkStore (users s) (user_ids s) (games s) sc (user_counter s).

Definition UsernameTaken : exn := ValueError "Username already taken".

(** [create_user]; [hashed] stands for the value of
    [pwd_context.hash(user.password)]. *)
Definition create_user (s : InMemoryStore) (user : UserCreate) (hashed : string)
  : InMemoryStore * result UserPublic :=
  match users s !! uc_username user with
  | Some _ => (s, raise UsernameTaken)
  | None =>
      let user_obj := mkUserObj (user_counter s) (uc_username user) hashed in
      (mkStore (<[uc_username user := user_obj]> (users s))
               (<[user_counter s := uc_username user]> (user_ids s))
               (games s)
               (<[uc_username user := mkEntry (uc_username user) 0 0 0 0]> (scores s))
               (user_counter s + 1),
       Ok (mkUser (uc_username user) (obj_id user_obj)))
  end.

(** [verify_user]; [pwd_verify] stands for [pwd_context.verify]. *)
Definition verify_user (pwd_verify : string → string → bool)
    (s : InMemoryStore) (name password : string) : option UserPublic :=
  match users s !! name with
  | None => None
  | Some user_obj =>
      if negb (pwd_verify password (hashed_pw user_obj)) then None
      else Some (mkUser name (obj_id user_obj))
  end.

Definition get_user (s : InMemoryStore) (name : string) : option UserPublic :=
  match users s !! name with
  | Some user_obj => Some (mkUser name (obj_id user_obj))
  | None => None
  end.

(** The counter updates of [update_scoreboard] on one player's entry:
    [games_played += 1], then one of [draws], [wins], [losses]. *)
Definition bump (w : option string) (draw : bool) (name : string)
    (entry : LeaderboardEntry) : LeaderboardEntry :=
  let played := (games_played entry + 1)%Z in
  if draw
  then mkEntry (lb_username entry) (wins entry) (losses entry)
               (draws entry + 1)%Z played
  else if bool_decide (Some name = w)
  then mkEntry (lb_username entry) (wins entry + 1)%Z (losses entry)
               (draws entry) played
  else mkEntry (lb_username entry) (wins entry) (losses entry + 1)%Z
               (draws entry) played.

(** The entry [setdefault] hands out for a name. *)
Definition entry_of (sc : gmap string LeaderboardEntry) (name : string)
  : LeaderboardEntry :=
  default (mkEntry name 0 0 0 0) (sc !! name).

(** The body of the loop of [update_scoreboard] for one player:
    [setdefault], then the counter updates on the stored entry. *)
Definition score_player (w : option string) (draw : bool)
    (sc : gmap string LeaderboardEntry) (p : UserPublic)
  : gmap string LeaderboardEntry :=
  <[username p := bump w draw (username p) (entry_of sc (username p))]> sc.

Definition update_scoreboard (s : InMemoryStore) (w : option string)
    (ps : list UserPublic) (draw : bool) : InMemoryStore :=
  set_scores (foldl (score_player w draw) (scores s) ps) s.

(** The sort key of [get_leaderboard]:
    [(-e.wins, e.losses, -e.draws, e.username)]. *)
Definition sort_key (e : LeaderboardEntry) : Z * Z * Z * string :=
  ((- wins e)%Z, losses e, (- draws e)%Z, lb_username e).

(** [k1 <= k2] on such tuples: Python compares them component by
    component, strings by code point, which on the bytes of a string is
    [String.compare]. *)
Definition key_leb (k1 k2 : Z * Z * Z * string) : bool :=
  let '(a1, b1, c1, u1) := k1 in
  let '(a2, b2, c2, u2) := k2 in
  if (a1 <? a2)%Z then true else if (a2 <? a1)%Z then false
  else if (b1 <? b2)%Z then true else if (b2 <? b1)%Z then false
  else if (c1 <? c2)%Z then true else if (c2 <? c1)%Z then false
  else String.leb u1 u2.

Definition entry_le (e1 e2 : LeaderboardEntry) : Prop :=
  key_leb (sort_key e1) (sort_key e2) = true.

#[global] Instance entry_le_dec e1 e2 : Decision (entry_le e1 e2).
Proof. unfold entry_le. apply _. Defined.

(** [get_leaderboard]: the entries sorted by the key.  The order in which
    the dictionary hands out its values matters to [sorted] only among
    entries with equal keys. *)
Definition get_leaderboard (s : InMemoryStore) : list LeaderboardEntry :=
  merge_sort entry_le (map_to_list (scores s)).*2.

(** ** Request handlers ([main.py]) *)

(** What a handler gives back: the returned value, a raised
    [HTTPException], or an exception nothing in the handler catches. *)
Inductive response (A : Type) : Type :=
| Return (a : A)
| HTTPException (status_code : Z) (detail : string)
| Unhandled (e : exn).
Arguments Return {A} a.
Arguments HTTPException {A} status_code detail.
Arguments Unhandled {A} e.

(** [MoveRequest] of [models.py]. *)
Record MoveRequest : Type := mkMoveRequest {
  mr_room_id : string;
  mr_row : Z;
  mr_col : Z;
  mr_player : string
}.

(** The handlers of [main.py] that change the store.  [user] is the value
    of the dependency [get_current_user]; the handlers carry the names they
    have in [main.py], inside this module since two of them share their
    name with a method of the store. *)
Module Api.

Definition register_user (s : InMemoryStore) (user : UserCreate) (hashed : string)
  : InMemoryStore * response UserPublic :=
  match create_user s user hashed with
  | (s', inr u) => (s', Return u)
  | (s', inl (ValueError msg)) => (s', HTTPException 400 msg)
  | (s', inl e) => (s', Unhandled e)
  end.

Definition create_game (s : InMemoryStore) (nickname : string)
    (user : UserPublic) (token : string)
  : InMemoryStore * response GameRoom :=
  if negb (String.eqb nickname (username user))
  then (s, HTTPException 403 "You can only create a game as yourself.")
  else
    let '(gs, game) := create_game (games s) token user in
    (set_games gs s, Return game).

Definition join_game (s : InMemoryStore) (rid nickname : string)
    (user : UserPublic)
  : InMemoryStore * response GameRoom :=
  if negb (String.eqb nickname (username user))
  then (s, HTTPException 403 "You can only join a game as yourself.")
  else
    match join_game (games s) rid user with
    | (gs, inr game) => (set_games (save_game gs game) s, Return game)
    | (gs, inl (ValueError msg)) => (set_games gs s, HTTPException 400 msg)
    | (gs, inl e) => (set_games gs s, Unhandled e)
    end.

Definition make_a_move (s : InMemoryStore) (req : MoveRequest)
    (user : UserPublic)
  : InMemoryStore * response GameState :=
  match get_game (games s) (mr_room_id req) with
  | None => (s, HTTPException 404 "No such room")
  | Some game =>
      if negb (bool_decide (username user ∈ names game))
      then (s, HTTPException 403 "You are not a player in this room")
      else
        let '(game', res) :=
          make_move game (username user) (mr_row req) (mr_col req) in
        let s1 := set_games (<[mr_room_id req := game']> (games s)) s in
        match res with
        | inl (ValueError msg) => (s1, HTTPException 400 msg)
        | inl e => (s1, Unhandled e)
        | inr state =>
            let s2 := set_games (save_game (games s1) game') s1 in
            let s3 :=
              if st_finished state
              then update_scoreboard s2 (st_winner state) (players game')
                     (bool_decide (st_winner state = None))
              else s2 in
            (s3, Return state)
        end
  end.

End Api.

(** The stores the handlers can produce from the initial one. *)
Inductive app_reachable : InMemoryStore → Prop :=
| app_init : app_reachable init_store
| app_register s user hashed :
    app_reachable s → app_reachable (Api.register_user s user hashed).1
| app_create s nickname user token :
    app_reachable s → app_reachable (Api.create_game s nickname user token).1
| app_join s rid nickname user :
    app_reachable s → app_reachable (Api.join_game s rid nickname user).1
| app_move s req user :
    app_reachable s → app_reachable (Api.make_a_move s req user).1.

(** Users and their identifiers index each other. *)
Definition users_inv (s : InMemoryStore) : Prop :=
  (1 ≤ user_counter s)%Z ∧
  (∀ name o, users s !! name = Some o →
     obj_username o = name ∧ (1 ≤ obj_id o < user_counter s)%Z ∧
     user_ids s !! obj_id o = Some name) ∧
  (∀ i name, user_ids s !! i = Some name →
     ∃ o, users s !! name = Some o ∧ obj_id o = i).

(** Every score entry is filed under its own name and its counters add
    up. *)
Definition entry_ok (name : string) (e : LeaderboardEntry) : Prop :=
  lb_username e = name ∧
  (0 ≤ wins e)%Z ∧ (0 ≤ losses e)%Z ∧ (0 ≤ draws e)%Z ∧
  games_played e = (wins e + losses e + draws e)%Z.

Definition scores_inv (s : InMemoryStore) : Prop :=
  (∀ name e, scores s !! name = Some e → entry_ok name e) ∧
  (∀ name, is_Some (users s !! name) → is_Some (scores s !! name)).

(** *** A sample session *)

Definition move_req (r c : Z) (who : string) : MoveRequest :=
  mkMoveRequest rid0 r c who.

(** Alice and Bob register, Alice opens the room [rid0], Bob joins, and
    they play the game of the specification. *)
Definition session_start : InMemoryStore :=
  let s1 := (Api.register_user init_store (mkUserCreate "alice" "wonderland") "$2b$a").1 in
  let s2 := (Api.register_user s1 (mkUserCreate "bob" "builder99") "$2b$b").1 in
  let s3 := (Api.create_game s2 "alice" alice rid0).1 in
  (Api.join_game s3 rid0 "bob" bob).1.

Definition session_before_win : InMemoryStore :=
  foldl (λ s '(r, c, who), (Api.make_a_move s (move_req r c (username who)) who).1)
        session_start
        [(0, 0, alice); (1, 1, bob); (0, 1, alice); (2, 2, bob)]%Z.

Definition session_end : InMemoryStore :=
  (Api.make_a_move session_before_win (move_req 0 2 "alice") alice).1.

(** ** History of finished games ([main.py]) *)

(** [GameSummary] of [models.py]. *)
Record GameSummary : Type := mkSummary {
  gs_room_id : string;
  gs_players : list string;
  gs_winner : option string;
  gs_finished : bool
}.

(** [list_games]: the rooms of the registry.  Python lists them in the
    order in which their keys were first inserted; the finite map lists
    them in an order of its own, so only statements that do not depend on
    the order of the list are made about it. *)
Definition list_games (s : InMemoryStore) : list GameRoom :=
  (map_to_list (games s)).*2.

Definition summary (g : GameRoom) : GameSummary :=
  mkSummary (room_id g) (names g) (winner g) (finished g).

(** [get_game_history]: one summary per finished room. *)
Definition get_game_history (s : InMemoryStore) : list GameSummary :=
  summary <$> filter (λ g, finished g = true) (list_games s).

(** ** The connection manager ([main.py]) *)

(** A websocket object is compared by identity ([ws != websocket]); it is
    represented by a handle. *)
Abbreviation WebSocket := Z.

(** [ConnectionManager.active_connections]: the sockets registered per
    room, in the order of registration. *)
Abbreviation Connections := (gmap string (list WebSocket)).

(** [ConnectionManager.__init__]. *)
Definition no_connections : Connections := ∅.

(** The sockets registered for a room, none if the room has no key. *)
Definition subscribers (m : Connections) (rid : string) : list WebSocket :=
  default [] (m !! rid).

(** [connect], once [websocket.accept()] has returned:
    [setdefault(room_id, []).append(websocket)]. *)
Definition connect (m : Connections) (rid : string) (ws : WebSocket)
  : Connections :=
  <[rid := default [] (m !! rid) ++ [ws]]> m.

(** [disconnect]: the room's list is replaced by the sockets other than
    [websocket]; a room without a key is left without one. *)
Definition disconnect (m : Connections) (rid : string) (ws : WebSocket)
  : Connections :=
  match m !! rid with
  | Some l => <[rid := filter (λ w, w ≠ ws) l]> m
  | None => m
  end.

(** The first loop of [broadcast]: [send i] tells whether the [i]-th call
    of [ws.send_json(message)] returns; the sockets served and the list
    [disconnected] are collected in order. *)
Fixpoint send_all (send : nat → bool) (i : nat) (l : list WebSocket)
  : list WebSocket * list WebSocket :=
  match l with
  | [] => ([], [])
  | ws :: rest =>
      let '(served, disconnected) := send_all send (S i) rest in
      if send i then (ws :: served, disconnected)
      else (served, ws :: disconnected)
  end.

(** How [broadcast] ends. *)
Inductive broadcast_end : Type :=
| Completed
| TypeError (msg : string).

(** [broadcast]: the manager after the call, the sockets that received the
    message, and how the call ended.  [disconnect] is a plain method: in
    [await self.disconnect(room_id, ws)] the call is made and returns
    [None], and awaiting [None] raises [TypeError], so the second loop
    stops in its first round. *)
Definition broadcast (send : nat → bool) (m : Connections) (rid : string)
  : Connections * list WebSocket * broadcast_end :=
  match m !! rid with
  | None => (m, [], Completed)
  | Some l =>
      let '(served, disconnected) := send_all send 0 l in
      match disconnected with
      | [] => (m, served, Completed)
      | ws :: _ =>
          (disconnect m rid ws, served,
           TypeError "object NoneType can't be used in 'await' expression")
      end
  end.

(** Two sockets are registered for [rid0], the first of them twice, and a
    third for another room. *)
Definition sample_connections : Connections :=
  connect (connect (connect (connect no_connections rid0 7) rid0 8) "other" 9)
          rid0 7.

(** ** Basic facts *)

Lemma bind_Ok {A B} (a : A) (k : A → result B) : bind (Ok a) k = k a.
Proof. reflexivity. Qed.

Lemma truthy_true s : truthy s = true ↔ s ≠ "".
Proof.
  unfold truthy. rewrite negb_true_iff. apply String.eqb_neq.
Qed.

Lemma truthy_false s : truthy s = false ↔ s = "".
Proof.
  unfold truthy. rewrite negb_false_iff. apply String.eqb_eq.
Qed.

Lemma is_3x3_cells b :
  is_3x3 b →
  ∃ a0 a1 a2 b0 b1 b2 c0 c1 c2,
    b = [[a0; a1; a2]; [b0; b1; b2]; [c0; c1; c2]].
Proof.
  intros [Hlen Hrows].
  destruct b as [|r0 [|r1 [|r2 [|? ?]]]]; simpl in Hlen; try discriminate.
  apply Forall_cons in Hrows as [H0 Hrows].
  apply Forall_cons in Hrows as [H1 Hrows].
  apply Forall_cons in Hrows as [H2 _].
  destruct r0 as [|a0 [|a1 [|a2 [|? ?]]]]; simpl in H0; try discriminate.
  destruct r1 as [|b0 [|b1 [|b2 [|? ?]]]]; simpl in H1; try discriminate.
  destruct r2 as [|c0 [|c1 [|c2 [|? ?]]]]; simpl in H2; try discriminate.
  by exists a0, a1, a2, b0, b1, b2, c0, c1, c2.
Qed.

Lemma cells_is_3x3 a0 a1 a2 b0 b1 b2 c0 c1 c2 :
  is_3x3 [[a0; a1; a2]; [b0; b1; b2]; [c0; c1; c2]].
Proof. split; [done | by repeat constructor]. Qed.

(** On a 3x3 board the list built by [check_winner] is [scan_order]. *)
Lemma build_lines_3x3 b : is_3x3 b → build_lines b = Ok (scan_order b).
Proof.
  intros H. apply is_3x3_cells in H as (a0&a1&a2&b0&b1&b2&c0&c1&c2&->).
  reflexivity.
Qed.

Lemma scan_order_lengths b : Forall (λ l, length l = 3) (scan_order b).
Proof. unfold scan_order. by repeat constructor. Qed.

Lemma count_three x y z :
  Nat.eqb (count x [x; y; z]) 3 = bool_decide (y = x ∧ z = x).
Proof.
  unfold count. rewrite !filter_cons, filter_nil.
  repeat case_decide; simpl; try done;
    (symmetry; first [ by apply bool_decide_eq_true | apply bool_decide_eq_false; naive_solver ]).
Qed.

Lemma line_wins_three x y z :
  line_wins [x; y; z] = Ok (bool_decide (winning_line [x; y; z])).
Proof.
  unfold line_wins. simpl. rewrite count_three. f_equal.
  destruct (truthy x) eqn:Hx; simpl.
  - apply truthy_true in Hx. apply bool_decide_ext. unfold winning_line, mono.
    split.
    + intros [-> ->]. by exists x.
    + intros (m & _ & [= -> -> ->]). done.
  - apply truthy_false in Hx. symmetry. apply bool_decide_eq_false.
    intros (m & Hm & [= -> -> ->]). done.
Qed.

(** The scanning loop returns the head of the first winning line. *)
Lemma scan_lines_find ls :
  Forall (λ l, length l = 3) ls →
  scan_lines ls = Ok ((λ p, hd "" p.2) <$> list_find winning_line ls).
Proof.
  induction 1 as [|l ls Hl _ IH]; [done|].
  destruct l as [|x [|y [|z [|? ?]]]]; simpl in Hl; try discriminate.
  cbn [scan_lines list_find]. rewrite line_wins_three. simpl.
  destruct (decide (winning_line [x; y; z])) as [Hw|Hw].
  - rewrite bool_decide_eq_true_2 by done. reflexivity.
  - rewrite bool_decide_eq_false_2 by done. rewrite IH.
    by destruct (list_find winning_line ls) as [[? ?]|].
Qed.

Lemma check_winner_find b :
  is_3x3 b →
  check_winner b =
    match list_find winning_line (scan_order b) with
    | Some (_, l) => Ok (Some (hd "" l), true)
    | None => Ok (None, board_full b)
    end.
Proof.
  intros H. unfold check_winner.
  rewrite (build_lines_3x3 b H), bind_Ok.
  rewrite (scan_lines_find _ (scan_order_lengths b)), bind_Ok.
  destruct (list_find winning_line (scan_order b)) as [[? ?]|]; simpl; [done|].
  by destruct (board_full b).
Qed.

Lemma board_full_occupied b : is_3x3 b → board_full b = true ↔ occupied b.
Proof.
  intros H. apply is_3x3_cells in H as (a0&a1&a2&b0&b1&b2&c0&c1&c2&->).
  unfold board_full, occupied. simpl. rewrite !andb_true_iff, !truthy_true.
  split.
  - intros (?&?&?&?&?&?&?&?&?&_) i j Hi Hj.
    destruct i as [|[|[|?]]]; try lia; destruct j as [|[|[|?]]]; try lia; done.
  - intros Ho. repeat split.
    + apply (Ho 0 0); lia.
    + apply (Ho 0 1); lia.
    + apply (Ho 0 2); lia.
    + apply (Ho 1 0); lia.
    + apply (Ho 1 1); lia.
    + apply (Ho 1 2); lia.
    + apply (Ho 2 0); lia.
    + apply (Ho 2 1); lia.
    + apply (Ho 2 2); lia.
Qed.

(** ** Properties of [check_winner] *)

Lemma mono_hd m l : mono m l → hd "" l = m.
Proof. by intros [_ ->]. Qed.

Lemma mono_unique m m' l : mono m l → mono m' l → m' = m.
Proof. intros [_ ->] [_ [= ->]]. done. Qed.

Lemma first_line_unique {A} (P : A → Prop) (ls : list A) i j x y :
  ls !! i = Some x → P x → (∀ k z, ls !! k = Some z → k < i → ¬ P z) →
  ls !! j = Some y → P y → (∀ k z, ls !! k = Some z → k < j → ¬ P z) →
  i = j ∧ x = y.
Proof.
  intros Hi Px Hfi Hj Py Hfj.
  destruct (Nat.lt_trichotomy i j) as [Hlt|[->|Hlt]].
  - destruct (Hfj i x Hi Hlt Px).
  - split; [done | congruence].
  - destruct (Hfi j y Hj Hlt Py).
Qed.

(** C10: [check_winner] returns on every 3x3 board, whatever its cells
    hold, and when some line is monochrome the result is the mark of the
    first such line in the order row 0, column 0, row 1, column 1, row 2,
    column 2, main diagonal, anti-diagonal. *)
Theorem check_winner_total_first_line (b : Board) :
  is_3x3 b →
  ∃ w fin,
    check_winner b = Ok (w, fin) ∧
    ∀ i l m,
      scan_order b !! i = Some l →
      mono m l →
      (∀ j l', j < i → scan_order b !! j = Some l' → ¬ winning_line l') →
      w = Some m ∧ fin = true.
Proof.
  intros H. rewrite (check_winner_find b H).
  destruct (list_find winning_line (scan_order b)) as [[k l0]|] eqn:E.
  - exists (Some (hd "" l0)), true. split; [done|].
    intros i l m Hi Hm Hfirst.
    apply list_find_Some in E as (Hk & Hw & Hbefore).
    destruct (first_line_unique winning_line (scan_order b) i k l l0)
      as [_ <-]; eauto.
    + by exists m.
    + by rewrite (mono_hd m l).
  - exists None, (board_full b). split; [done|].
    intros i l m Hi Hm _.
    apply list_find_None in E. rewrite Forall_forall in E.
    destruct (E l); [by eapply list_elem_of_lookup_2 | by exists m].
Qed.

Lemma check_winner_total_first_line_witness :
  ∃ w fin,
    check_winner [["X"; "X"; "X"]; ["O"; "O"; "O"]; [""; ""; ""]] = Ok (w, fin) ∧
    ∀ i l m,
      scan_order [["X"; "X"; "X"]; ["O"; "O"; "O"]; [""; ""; ""]] !! i = Some l →
      mono m l →
      (∀ j l', j < i →
         scan_order [["X"; "X"; "X"]; ["O"; "O"; "O"]; [""; ""; ""]] !! j = Some l' →
         ¬ winning_line l') →
      w = Some m ∧ fin = true.
Proof.
  apply (check_winner_total_first_line [["X"; "X"; "X"]; ["O"; "O"; "O"]; [""; ""; ""]]).
  apply cells_is_3x3.
Defined.

Lemma no_line_iff b :
  list_find winning_line (scan_order b) = None ↔ ∀ m, ¬ has_line b m.
Proof.
  rewrite list_find_None, Forall_forall. unfold has_line, winning_line. split.
  - intros Hn m (l & Hl & Hm). apply (Hn l Hl). by exists m.
  - intros Hn l Hl (m & Hm). apply (Hn m). by exists l.
Qed.

(** A reported winner is the mark of a monochrome line. *)
Lemma check_winner_win_line b m fin :
  is_3x3 b → check_winner b = Ok (Some m, fin) → has_line b m.
Proof.
  intros H. rewrite (check_winner_find b H).
  destruct (list_find winning_line (scan_order b)) as [[k l0]|] eqn:E; [|done].
  apply list_find_Some in E as (Hk & (m0 & Hm0) & _).
  rewrite (mono_hd m0 l0 Hm0). intros [= <- _].
  exists l0. split; [by eapply list_elem_of_lookup_2 | done].
Qed.

(** C6, as the code has it: a win is reported exactly when some line is
    monochrome, and then for the mark of the first monochrome line in the
    order row 0, column 0, row 1, column 1, row 2, column 2, main diagonal,
    anti-diagonal (the only such mark when no two marks complete a line at
    once); a draw exactly when no line is monochrome and every cell is
    occupied; in progress exactly when no line is monochrome and some cell
    is empty. *)
Theorem check_winner_evaluate (b : Board) :
  is_3x3 b →
  (∀ m, check_winner b = Ok (Some m, true) → has_line b m) ∧
  ((∃ m, has_line b m) → ∃ m, has_line b m ∧ check_winner b = Ok (Some m, true)) ∧
  (∀ i l m, scan_order b !! i = Some l → mono m l →
     (∀ j l', j < i → scan_order b !! j = Some l' → ¬ winning_line l') →
     check_winner b = Ok (Some m, true)) ∧
  (∀ m, has_line b m → (∀ m', has_line b m' → m' = m) →
        check_winner b = Ok (Some m, true)) ∧
  (check_winner b = Ok (None, true) ↔ (∀ m, ¬ has_line b m) ∧ occupied b) ∧
  (check_winner b = Ok (None, false) ↔ (∀ m, ¬ has_line b m) ∧ ¬ occupied b).
Proof.
  intros H. rewrite (check_winner_find b H).
  pose proof (no_line_iff b) as Hnone.
  pose proof (board_full_occupied b H) as Hfull.
  destruct (list_find winning_line (scan_order b)) as [[k l0]|] eqn:E.
  - apply list_find_Some in E as (Hk & (m0 & Hm0) & Hbefore).
    rewrite (mono_hd m0 l0 Hm0).
    assert (has_line b m0) as Hline.
    { exists l0. split; [by eapply list_elem_of_lookup_2 | done]. }
    split; [|split; [|split; [|split; [|split]]]].
    + by intros m [= <-].
    + intros _. by exists m0.
    + intros i l m Hi Hm Hfirst.
      destruct (first_line_unique winning_line (scan_order b) i k l l0)
        as [_ <-]; eauto.
      * by exists m.
      * by exists m0.
      * destruct Hm as [_ ->], Hm0 as [_ [= ->]]. done.
    + intros m Hm Huniq. by rewrite (Huniq m0 Hline).
    + split; [discriminate|]. intros [Hn _]. destruct (Hn m0 Hline).
    + split; [discriminate|]. intros [Hn _]. destruct (Hn m0 Hline).
  - assert (∀ m, ¬ has_line b m) as Hn by by apply Hnone.
    split; [|split; [|split; [|split; [|split]]]].
    + discriminate.
    + intros [m Hm]. destruct (Hn m Hm).
    + intros i l m Hi Hm _. destruct (Hn m).
      exists l. split; [by eapply list_elem_of_lookup_2 | done].
    + intros m Hm. destruct (Hn m Hm).
    + split.
      * intros [= Hb]. split; [done | by apply Hfull].
      * intros [_ Ho]. apply Hfull in Ho. by rewrite Ho.
    + split.
      * intros [= Hb]. split; [done|]. intros Ho. apply Hfull in Ho. congruence.
      * intros [_ Ho]. destruct (board_full b) eqn:Hb; [|done].
        destruct Ho. by apply Hfull.
Qed.

Lemma check_winner_evaluate_witness :
  check_winner [["X"; "O"; "X"]; ["O"; "O"; "X"]; ["X"; "X"; "O"]] = Ok (None, true)
  ↔ (∀ m, ¬ has_line [["X"; "O"; "X"]; ["O"; "O"; "X"]; ["X"; "X"; "O"]] m)
    ∧ occupied [["X"; "O"; "X"]; ["O"; "O"; "X"]; ["X"; "X"; "O"]].
Proof.
  apply (check_winner_evaluate [["X"; "O"; "X"]; ["O"; "O"; "X"]; ["X"; "X"; "O"]]).
  apply cells_is_3x3.
Defined.

(** C6, as stated, fails on a board where both marks complete a line: the
    second row holds O throughout, yet the result is a win for X. *)
Lemma evaluate_spec_fails_two_winners :
  is_3x3 two_winners ∧ ¬ evaluate_spec two_winners.
Proof.
  split; [apply cells_is_3x3|].
  intros [Hwin _]. destruct (Hwin "O") as [_ Hback].
  assert (has_line two_winners "O") as Hline.
  { exists ["O"; "O"; "O"]. split; [|by split].
    by apply (list_elem_of_lookup_2 _ 2). }
  apply Hback in Hline. vm_compute in Hline. discriminate.
Qed.

(** *** Relabeling *)

Lemma swap_mark_empty m : swap_mark m = "" ↔ m = "".
Proof.
  unfold swap_mark.
  destruct (String.eqb_spec m "X") as [->|?]; [done|].
  destruct (String.eqb_spec m "O") as [->|?]; done.
Qed.

#[global] Instance swap_mark_inj : Inj (=) (=) swap_mark.
Proof.
  intros x y. unfold swap_mark.
  destruct (String.eqb_spec x "X"), (String.eqb_spec y "X"),
    (String.eqb_spec x "O"), (String.eqb_spec y "O"); congruence.
Qed.

Lemma winning_line_swap l :
  winning_line (swap_mark <$> l) ↔ winning_line l.
Proof.
  unfold winning_line, mono. split.
  - intros (m & Hm & Hl).
    destruct l as [|x [|y [|z [|? ?]]]]; try discriminate.
    injection Hl as Hx Hy Hz. exists x. split.
    + intros ->. by apply Hm.
    + rewrite <- Hx in Hy, Hz. apply (inj swap_mark) in Hy, Hz. congruence.
  - intros (m & Hm & ->). exists (swap_mark m). split; [|done].
    by rewrite swap_mark_empty.
Qed.

Lemma scan_order_swap b :
  is_3x3 b →
  scan_order (swap_board b)
  = fmap (M:=list) (fmap (M:=list) swap_mark) (scan_order b).
Proof.
  intros H. apply is_3x3_cells in H as (a0&a1&a2&b0&b1&b2&c0&c1&c2&->).
  reflexivity.
Qed.

Lemma swap_board_3x3 b : is_3x3 b → is_3x3 (swap_board b).
Proof.
  intros H. apply is_3x3_cells in H as (a0&a1&a2&b0&b1&b2&c0&c1&c2&->).
  apply cells_is_3x3.
Qed.

Lemma board_full_swap b : board_full (swap_board b) = board_full b.
Proof.
  unfold board_full, swap_board.
  induction b as [|r b IH]; [done|]. cbn [fmap list_fmap concat].
  rewrite !forallb_app. f_equal; [|apply IH].
  clear. induction r as [|x r IH]; [done|]. cbn [fmap list_fmap forallb].
  f_equal; [|apply IH].
  destruct (truthy x) eqn:Hx.
  - apply truthy_true. rewrite swap_mark_empty. by apply truthy_true.
  - apply truthy_false. rewrite swap_mark_empty. by apply truthy_false.
Qed.

(** C8: on every 3x3 board, exchanging the two marks leaves the finished
    flag as it is and exchanges the winner mark. *)
Theorem check_winner_swap (b : Board) :
  is_3x3 b →
  ∃ w fin,
    check_winner b = Ok (w, fin) ∧
    check_winner (swap_board b) = Ok (swap_mark <$> w, fin).
Proof.
  intros H.
  rewrite (check_winner_find b H).
  rewrite (check_winner_find _ (swap_board_3x3 b H)).
  rewrite (scan_order_swap b H), list_find_fmap.
  rewrite (list_find_ext (winning_line ∘ fmap (M:=list) swap_mark) winning_line)
    by (intros l; apply winning_line_swap).
  rewrite board_full_swap.
  destruct (list_find winning_line (scan_order b)) as [[k l]|] eqn:E.
  - apply list_find_Some in E as (_ & (m & _ & ->) & _).
    by exists (Some m), true.
  - by exists None, (board_full b).
Qed.

Lemma check_winner_swap_witness :
  ∃ w fin,
    check_winner [["X"; "O"; ""]; ["O"; "X"; ""]; [""; ""; "X"]] = Ok (w, fin) ∧
    check_winner (swap_board [["X"; "O"; ""]; ["O"; "X"; ""]; [""; ""; "X"]])
      = Ok (swap_mark <$> w, fin).
Proof.
  apply (check_winner_swap [["X"; "O"; ""]; ["O"; "X"; ""]; [""; ""; "X"]]).
  apply cells_is_3x3.
Defined.

(** ** Properties of [make_move] *)

Lemma is_next_true u g : is_next u g = true ↔ next_turn g = Some u.
Proof.
  unfold is_next. destruct (next_turn g) as [n|]; [|done].
  rewrite String.eqb_eq. split; congruence.
Qed.

Lemma in_bounds_true r c :
  in_bounds r c = true ↔ (0 ≤ r ≤ 2 ∧ 0 ≤ c ≤ 2)%Z.
Proof.
  unfold in_bounds. rewrite !andb_true_iff, !Z.leb_le, !Z.ltb_lt. lia.
Qed.

Lemma in_bounds_nat r c :
  in_bounds r c = true → Z.to_nat r < 3 ∧ Z.to_nat c < 3.
Proof. rewrite in_bounds_true. lia. Qed.

Lemma cell_Some b i j v :
  cell b i j = Ok v ↔ ∃ line, b !! i = Some line ∧ line !! j = Some v.
Proof.
  unfold cell, index, bind, Ok, raise. split.
  - destruct (b !! i) as [line|]; [|done].
    destruct (line !! j) eqn:E; [|done]. intros [= ->]. eauto.
  - intros (line & -> & ->). done.
Qed.

Lemma cell_3x3 b i j :
  is_3x3 b → i < 3 → j < 3 → cell b i j = Ok (mark_at b i j).
Proof.
  intros H Hi Hj. apply is_3x3_cells in H as (a0&a1&a2&b0&b1&b2&c0&c1&c2&->).
  destruct i as [|[|[|?]]]; try lia; destruct j as [|[|[|?]]]; try lia; done.
Qed.

Lemma place_3x3 b i j m : is_3x3 b → is_3x3 (place b i j m).
Proof.
  intros [Hlen Hrows]. unfold place.
  destruct (b !! i) as [line|] eqn:E; [|done]. split.
  - by rewrite length_insert.
  - apply Forall_insert; [done|]. rewrite length_insert.
    by apply (Forall_lookup_1 _ _ _ _ Hrows E).
Qed.

Lemma cell_place_eq b i j m v :
  cell b i j = Ok v → cell (place b i j m) i j = Ok m.
Proof.
  rewrite !cell_Some. intros (line & Hi & Hj). unfold place. rewrite Hi.
  exists (<[j := m]> line). split.
  - apply list_lookup_insert_eq. by eapply lookup_lt_Some.
  - apply list_lookup_insert_eq. by eapply lookup_lt_Some.
Qed.

Lemma cell_place_ne b i j m i' j' :
  (i', j') ≠ (i, j) → cell (place b i j m) i' j' = cell b i' j'.
Proof.
  intros Hne. unfold place.
  destruct (b !! i) as [line|] eqn:E; [|done].
  unfold cell, index, bind.
  destruct (decide (i' = i)) as [->|Hi].
  - rewrite list_lookup_insert_eq by by eapply lookup_lt_Some.
    rewrite E. unfold Ok. simpl.
    rewrite list_lookup_insert_ne by congruence. done.
  - by rewrite list_lookup_insert_ne by done.
Qed.

Lemma check_winner_unfinished b w : check_winner b = Ok (w, false) → w = None.
Proof.
  unfold check_winner, bind.
  destruct (build_lines b) as [|lines]; [done|].
  destruct (scan_lines lines) as [|[x|]]; [done|done|].
  by destruct (board_full b); intros [= <-].
Qed.

Lemma check_winner_3x3_Ok b : is_3x3 b → ∃ w fin, check_winner b = Ok (w, fin).
Proof.
  intros H. rewrite (check_winner_find b H).
  destruct (list_find winning_line (scan_order b)) as [[? ?]|]; eauto.
Qed.

(** The room and the state snapshot after an accepted move. *)
Lemma make_move_Ok g u r c g' st :
  make_move g u r c = (g', Ok st) →
  finished g = false ∧ next_turn g = Some u ∧ in_bounds r c = true ∧
  cell (board g) (Z.to_nat r) (Z.to_nat c) = Ok "" ∧
  ∃ w fin,
    let b' := place (board g) (Z.to_nat r) (Z.to_nat c) (mark_of g u) in
    players g ≠ [] ∧
    check_winner b' = Ok (w, fin) ∧
    g' = mkRoom (room_id g) (players g) b'
           (if fin then next_turn g else Some (other_player g u))
           fin w (moves g ++ [mkMove u r c]) ∧
    st = mkState b' (if fin then None else Some (other_player g u)) w fin.
Proof.
  unfold make_move, mark_of.
  destruct (finished g) eqn:Hf; [done|].
  destruct (is_next u g) eqn:Hn; [|done].
  destruct (in_bounds r c) eqn:Hb; [|done]. simpl.
  destruct (cell (board g) (Z.to_nat r) (Z.to_nat c)) as [|v] eqn:Hc; [done|].
  destruct (truthy v) eqn:Hv; [done|]. apply truthy_false in Hv as ->.
  unfold index. destruct (players g) as [|p0 ps] eqn:Hp; [done|]. simpl.
  destruct (check_winner _) as [|[w fin]] eqn:Hw; [done|].
  intros [= <- <-].
  split; [done|]. split; [by apply is_next_true|]. split; [done|]. split; [done|].
  exists w, fin. split; [done|]. split; [done|].
  destruct fin;
    unfold set_winner, set_finished, set_next_turn, set_moves, set_board,
      other_player; simpl; rewrite ?Hp, ?Hf; [done|].
  by apply check_winner_unfinished in Hw as ->.
Qed.

(** The only exception [check_winner] can raise is [IndexError]. *)
Lemma index_raises {A} (l : list A) i e : index l i = inl e → e = IndexError.
Proof. unfold index. destruct (l !! i); [done|]. by intros [= <-]. Qed.

Lemma bind_raises {A B} (m : result A) (k : A → result B) e :
  bind m k = inl e → m = inl e ∨ ∃ a, m = inr a ∧ k a = inl e.
Proof. destruct m as [e'|a]; simpl; [intros [= ->]; by left | eauto]. Qed.

Ltac raises :=
  repeat match goal with
    | H : bind _ _ = inl _ |- _ => apply bind_raises in H as [H|(? & _ & H)]
    | H : index _ _ = inl _ |- _ => by apply index_raises in H
    | H : cell _ _ _ = inl _ |- _ => unfold cell in H
    | H : Ok _ = inl _ |- _ => discriminate H
    end.

Lemma build_lines_raises b e : build_lines b = inl e → e = IndexError.
Proof.
  unfold build_lines. cbn [seq for_range]. unfold append_row_col.
  intros H. raises.
Qed.

Lemma scan_lines_raises ls e : scan_lines ls = inl e → e = IndexError.
Proof.
  induction ls as [|l ls IH]; [done|]. cbn [scan_lines]. unfold line_wins.
  intros H. raises.
  match goal with
  | H : (if ?w then _ else _) = inl _ |- _ => destruct w; [raises | by apply IH]
  end.
Qed.

Lemma check_winner_raises b e : check_winner b = inl e → e = IndexError.
Proof.
  unfold check_winner. intros H.
  apply bind_raises in H as [H|(lines & _ & H)];
    [by apply build_lines_raises in H|].
  apply bind_raises in H as [H|(hit & _ & H)];
    [by apply scan_lines_raises in H|].
  destruct hit; [done|]. by destruct (board_full b).
Qed.

(** C3: on a well-formed room [make_move] raises exactly the failure that
    the four conditions, tried in the order finished, out of turn, out of
    bounds, occupied, prescribe, and returns a state when none applies. *)
Theorem make_move_failures (g : GameRoom) (u : string) (r c : Z) :
  wf_room g →
  match expected_failure g u r c with
  | Some e => (make_move g u r c).2 = raise e
  | None => ∃ st, (make_move g u r c).2 = Ok st
  end.
Proof.
  intros [H3 Hp]. unfold expected_failure.
  destruct (finished g) eqn:Hf.
  { unfold make_move. by rewrite Hf. }
  destruct (is_next u g) eqn:Hn.
  2:{ rewrite bool_decide_eq_true_2.
      - unfold make_move. by rewrite Hf, Hn.
      - intros Hs. apply is_next_true in Hs. congruence. }
  rewrite bool_decide_eq_false_2
    by (intros Hs; apply Hs; by apply is_next_true).
  destruct (in_bounds r c) eqn:Hb.
  2:{ rewrite bool_decide_eq_true_2.
      - unfold make_move. by rewrite Hf, Hn, Hb.
      - intros Hs. apply in_bounds_true in Hs. congruence. }
  rewrite bool_decide_eq_false_2
    by (intros Hs; apply Hs; by apply in_bounds_true).
  destruct (in_bounds_nat r c Hb) as [Hr Hc].
  pose proof (cell_3x3 _ _ _ H3 Hr Hc) as Hcell. unfold Ok in Hcell.
  destruct (truthy (mark_at (board g) (Z.to_nat r) (Z.to_nat c))) eqn:Hv.
  { rewrite bool_decide_eq_true_2 by by apply truthy_true.
    unfold make_move. rewrite Hf, Hn, Hb. simpl. rewrite Hcell. by rewrite Hv. }
  rewrite bool_decide_eq_false_2
    by (intros Hs; apply Hs; by apply truthy_false).
  unfold make_move. rewrite Hf, Hn, Hb. simpl. rewrite Hcell. rewrite Hv.
  destruct (players g) as [|p0 ps]; [done|]. simpl.
  match goal with
  | |- context [check_winner ?b] =>
      destruct (check_winner_3x3_Ok b) as (w & fin & ->)
  end.
  - by apply place_3x3.
  - eauto.
Qed.

Lemma duo_room_wf : wf_room duo_room.
Proof. split; [apply cells_is_3x3 | done]. Qed.

Lemma make_move_failures_witness :
  (make_move duo_room "bob" 5 0).2 = raise OutOfTurn.
Proof.
  pose proof (make_move_failures duo_room "bob" 5 0 duo_room_wf) as H.
  vm_compute in H. exact H.
Defined.

(** C4: a move attempt rejected with one of the rule engine's errors
    leaves the room, and the registry that holds it, as they were. *)
Theorem make_move_rejected_unchanged
    (g g' : GameRoom) (u : string) (r c : Z) (msg : string) :
  make_move g u r c = (g', raise (ValueError msg)) →
  g' = g ∧ ∀ (s : Store) rid, s !! rid = Some g → (move_in_store s rid u r c).1 = s.
Proof.
  intros Hm. assert (g' = g) as ->.
  { revert Hm. unfold make_move.
    destruct (finished g); [by intros [= <-]|].
    destruct (negb (is_next u g)); [by intros [= <-]|].
    destruct (negb (in_bounds r c)); [by intros [= <-]|].
    destruct (cell _ _ _) as [|v]; [by intros [= <-]|].
    destruct (truthy v); [by intros [= <-]|].
    destruct (index _ _) as [|p0]; [by intros [= <-]|].
    destruct (check_winner _) as [e|[w fin]] eqn:Hw; [|done].
    apply check_winner_raises in Hw as ->. done. }
  split; [done|]. intros s rid Hs.
  unfold move_in_store, get_game. rewrite Hs, Hm. simpl. by apply insert_id.
Qed.

Lemma make_move_rejected_unchanged_witness :
  after_win_room = after_win_room
  ∧ ∀ (s : Store) rid,
      s !! rid = Some after_win_room →
      (move_in_store s rid "bob" 1 0).1 = s.
Proof.
  refine (make_move_rejected_unchanged
            after_win_room after_win_room "bob" 1 0
            "Game already finished." _).
  vm_compute. reflexivity.
Defined.

Lemma mark_of_nonempty g u : mark_of g u ≠ "".
Proof.
  unfold mark_of. destruct (players g) as [|p0 ?]; [done|].
  by destruct (String.eqb u (username p0)).
Qed.

(** C9: an accepted move keeps the room identifier and the participants,
    turns the empty target cell into the mover's mark, leaves every other
    cell as it was, and appends the one entry (mover, row, col) to the
    move log. *)
Theorem make_move_frame
    (g g' : GameRoom) (u : string) (r c : Z) (st : GameState) :
  make_move g u r c = (g', Ok st) →
  room_id g' = room_id g ∧
  players g' = players g ∧
  moves g' = moves g ++ [mkMove u r c] ∧
  ∃ i j,
    r = Z.of_nat i ∧ c = Z.of_nat j ∧
    cell (board g) i j = Ok "" ∧
    cell (board g') i j = Ok (mark_of g u) ∧
    mark_of g u ≠ "" ∧
    ∀ i' j', (i', j') ≠ (i, j) → cell (board g') i' j' = cell (board g) i' j'.
Proof.
  intros Hm.
  apply make_move_Ok in Hm
    as (_ & _ & Hb & Hc & w & fin & _ & _ & -> & _).
  apply in_bounds_true in Hb. simpl.
  split; [done|]. split; [done|]. split; [done|].
  exists (Z.to_nat r), (Z.to_nat c).
  split; [lia|]. split; [lia|]. split; [done|].
  split; [by eapply cell_place_eq|].
  split; [apply mark_of_nonempty|].
  intros i' j' Hne. by apply cell_place_ne.
Qed.

Lemma make_move_frame_witness :
  moves after_win_room = moves before_win_room ++ [mkMove "alice" 0 2].
Proof.
  refine (proj1 (proj2 (proj2
    (make_move_frame before_win_room after_win_room "alice" 0 2 win_state _)))).
  vm_compute. reflexivity.
Defined.

(** *** Moves that end the game *)

Lemma reachable_play s ms : reachable s → reachable (play s ms).
Proof.
  revert s. induction ms as [|[[u r] c] ms IH]; intros s Hs; [done|].
  apply IH. by apply reach_move.
Qed.

Lemma reachable_after_win : reachable after_win.
Proof.
  unfold after_win, before_win, duo_store, solo_store.
  do 2 apply reachable_play. apply reach_join, reach_create, reach_empty.
Qed.

(** C2, as stated, fails: Alice's winning move finishes the room, but the
    room's own next_turn still names her, so a reachable finished room has
    a next_turn. *)
Lemma terminal_next_turn_not_cleared :
  ¬ terminal_clears_next_turn before_win_room "alice" 0 2
  ∧ reachable after_win
  ∧ after_win !! rid0 = Some after_win_room
  ∧ finished after_win_room = true
  ∧ next_turn after_win_room ≠ None.
Proof.
  split; [|split; [apply reachable_after_win|]].
  - intros Hclaim.
    destruct (Hclaim after_win_room win_state (Some "X")) as (_ & _ & Hn).
    + vm_compute. reflexivity.
    + vm_compute. reflexivity.
    + discriminate Hn.
  - split; [vm_compute; reflexivity|]. split; [reflexivity | discriminate].
Qed.

(** C2, as the code has it: a move that ends the game sets the room's
    finished flag and winner and leaves the room's next_turn on the mover;
    it is the state snapshot, as returned by the move and as read back
    later, that has no next mover. *)
Theorem make_move_terminal
    (g g' : GameRoom) (u : string) (r c : Z) (st : GameState)
    (w : option string) :
  make_move g u r c = (g', Ok st) →
  check_winner (board g') = Ok (w, true) →
  finished g' = true ∧ winner g' = w ∧ next_turn g' = Some u ∧
  st_finished st = true ∧ st_winner st = w ∧ st_next_turn st = None ∧
  ∀ (s : Store) rid,
    s !! rid = Some g' →
    ∃ st', get_game_state s rid = Some st' ∧
           st_finished st' = true ∧ st_winner st' = w ∧
           st_next_turn st' = None.
Proof.
  intros Hm Hw.
  apply make_move_Ok in Hm
    as (_ & Hn & _ & _ & w' & fin & _ & Hw' & -> & ->).
  simpl in *. rewrite Hw' in Hw. injection Hw as -> ->.
  repeat (split; [done|]).
  intros s rid Hs. unfold get_game_state, get_game. rewrite Hs. simpl.
  eexists. split; [reflexivity|]. done.
Qed.

Lemma make_move_terminal_witness :
  finished after_win_room = true ∧ winner after_win_room = Some "X".
Proof.
  pose proof (make_move_terminal before_win_room after_win_room "alice" 0 2
                win_state (Some "X")) as H.
  destruct H as (Hf & Hw & _).
  - vm_compute. reflexivity.
  - vm_compute. reflexivity.
  - exact (conj Hf Hw).
Defined.

(** ** Counting marks *)

Lemma count_cons x y l :
  count x (y :: l) = (if decide (y = x) then S (count x l) else count x l).
Proof. unfold count. rewrite filter_cons. by case_decide. Qed.

Lemma count_app x l1 l2 : count x (l1 ++ l2) = count x l1 + count x l2.
Proof. unfold count. by rewrite filter_app, length_app. Qed.

Lemma count_insert x l j m :
  l !! j = Some "" → x ≠ "" →
  count x (<[j := m]> l) = (if decide (m = x) then S (count x l) else count x l).
Proof.
  revert j. induction l as [|y l IH]; intros j Hj Hx; [done|].
  destruct j as [|j]; simpl in *.
  - injection Hj as ->. rewrite !count_cons.
    rewrite (decide_False (P := "" = x)) by done. done.
  - rewrite !count_cons, (IH j Hj Hx). by repeat case_decide.
Qed.

Lemma count_mark_place b i j m x :
  cell b i j = Ok "" → x ≠ "" →
  count_mark x (place b i j m)
  = (if decide (m = x) then S (count_mark x b) else count_mark x b).
Proof.
  rewrite cell_Some. intros (line & Hi & Hj) Hx.
  unfold place, count_mark. rewrite Hi.
  revert i Hi. induction b as [|r b IH]; intros i Hi; [done|].
  destruct i as [|i]; simpl in *.
  - injection Hi as ->. rewrite !count_app, (count_insert x line j m Hj Hx).
    by case_decide.
  - rewrite !count_app, (IH i Hi). case_decide; lia.
Qed.

Lemma count_mark_empty_board x : x ≠ "" → count_mark x empty_board = 0.
Proof.
  intros Hx. unfold count_mark, empty_board. simpl.
  rewrite !count_cons. by rewrite !(decide_False (P := "" = x)) by done.
Qed.

(** The marks on the board after an accepted move. *)
Lemma make_move_counts g u r c g' st p0 ps :
  make_move g u r c = (g', Ok st) →
  players g = p0 :: ps →
  if String.eqb u (username p0)
  then x_count g' = S (x_count g) ∧ o_count g' = o_count g
  else x_count g' = x_count g ∧ o_count g' = S (o_count g).
Proof.
  intros Hm Hp.
  apply make_move_Ok in Hm as (_ & _ & _ & Hc & w & fin & _ & _ & -> & _).
  unfold x_count, o_count, mark_of. simpl. rewrite Hp.
  rewrite !(count_mark_place _ _ _ _ _ Hc) by done.
  by destruct (String.eqb u (username p0)).
Qed.

(** On a 3x3 board a move attempt either leaves the room as it was or is
    accepted. *)
Lemma make_move_3x3_raises g u r c g' e :
  is_3x3 (board g) → make_move g u r c = (g', inl e) → g' = g.
Proof.
  intros H3. unfold make_move.
  destruct (finished g); [by intros [= <-]|].
  destruct (negb (is_next u g)); [by intros [= <-]|].
  destruct (negb (in_bounds r c)); [by intros [= <-]|].
  destruct (cell _ _ _) as [|v]; [by intros [= <-]|].
  destruct (truthy v); [by intros [= <-]|].
  destruct (index _ _) as [|p0]; [by intros [= <-]|].
  match goal with
  | |- context [check_winner ?b] =>
      destruct (check_winner_3x3_Ok b) as (w & fin & ->)
  end; [|done].
  apply place_3x3, H3.
Qed.

Lemma other_player_first g u p0 ps :
  players g = p0 :: ps → u ≠ username p0 → other_player g u = username p0.
Proof.
  intros Hp Hu. unfold other_player. rewrite Hp. simpl.
  rewrite filter_cons, decide_True by congruence. done.
Qed.

Lemma other_player_second g u p0 p1 :
  players g = [p0; p1] → u = username p0 → username p1 ≠ username p0 →
  other_player g u = username p1.
Proof.
  intros Hp -> Hne. unfold other_player. rewrite Hp. simpl.
  rewrite filter_cons, decide_False by (intros H; by apply H).
  rewrite filter_cons, decide_True by done. done.
Qed.

(** ** The sample games, evaluated *)

Example duo_room_value :
  duo_room
  = mkRoom rid0 [alice; bob] [[""; ""; ""]; [""; ""; ""]; [""; ""; ""]]
      (Some "alice") false None [].
Proof. reflexivity. Qed.

Example solo_twice_room_value :
  solo_twice_room
  = mkRoom rid0 [alice] [["X"; "X"; ""]; [""; ""; ""]; [""; ""; ""]]
      (Some "alice") false None
      [mkMove "alice" 0 0; mkMove "alice" 0 1].
Proof. reflexivity. Qed.

Example before_win_room_value :
  before_win_room
  = mkRoom rid0 [alice; bob] [["X"; "X"; ""]; [""; "O"; ""]; [""; ""; "O"]]
      (Some "alice") false None
      [mkMove "alice" 0 0; mkMove "bob" 1 1; mkMove "alice" 0 1; mkMove "bob" 2 2].
Proof. reflexivity. Qed.

Example after_win_room_value :
  after_win_room
  = mkRoom rid0 [alice; bob] [["X"; "X"; "X"]; [""; "O"; ""]; [""; ""; "O"]]
      (Some "alice") true (Some "X")
      [mkMove "alice" 0 0; mkMove "bob" 1 1; mkMove "alice" 0 1; mkMove "bob" 2 2;
       mkMove "alice" 0 2].
Proof. reflexivity. Qed.

Example win_state_value :
  make_move before_win_room "alice" 0 2
  = (after_win_room,
     Ok (mkState [["X"; "X"; "X"]; [""; "O"; ""]; [""; ""; "O"]]
           None (Some "X") true)).
Proof. vm_compute. reflexivity. Qed.

(** ** Invariants of reachable registries *)

Lemma store_inv_empty P : store_inv P ∅.
Proof. intros rid g Hg. by rewrite lookup_empty in Hg. Qed.

Lemma store_inv_insert P (s : Store) rid g :
  store_inv P s → P g → store_inv P (<[rid := g]> s).
Proof.
  intros Hs Hg rid' g' Hl.
  destruct (decide (rid = rid')) as [->|Hne].
  - rewrite lookup_insert_eq in Hl. by injection Hl as <-.
  - rewrite lookup_insert_ne in Hl by done. by eapply Hs.
Qed.

Lemma empty_board_3x3 : is_3x3 empty_board.
Proof. apply cells_is_3x3. Qed.

Lemma room_inv_fresh token user :
  room_inv (mkRoom token [user] empty_board (Some (username user)) false None []).
Proof.
  split; [apply empty_board_3x3|]. exists user, []. simpl.
  unfold x_count, o_count. simpl.
  rewrite !count_mark_empty_board by done. split; [done|]. split; [lia|done].
Qed.

Lemma room_inv_join g p :
  room_inv g → room_inv (set_players (players g ++ [p]) g).
Proof.
  intros (H3 & p0 & ps & Hp & Hle & Hturn). split; [done|].
  exists p0, (ps ++ [p]). simpl. rewrite Hp. done.
Qed.

Lemma room_inv_move g u r c : room_inv g → room_inv (make_move g u r c).1.
Proof.
  intros (H3 & p0 & ps & Hp & Hle & Hturn).
  destruct (make_move g u r c) as [g' [e|st]] eqn:Hm; simpl.
  { apply make_move_3x3_raises in Hm as ->; [|done].
    split; [done|]. by exists p0, ps. }
  pose proof (make_move_counts _ _ _ _ _ _ _ _ Hm Hp) as Hcount.
  apply make_move_Ok in Hm
    as (Hf & Hn & _ & _ & w & fin & _ & _ & Hg' & _).
  assert (players g' = players g ∧ finished g' = fin ∧
          board g' = place (board g) (Z.to_nat r) (Z.to_nat c) (mark_of g u) ∧
          next_turn g' = if fin then next_turn g else Some (other_player g u))
    as (Hp' & Hf' & Hb' & Hn') by by rewrite Hg'.
  clear Hg'. split; [rewrite Hb'; by apply place_3x3|].
  exists p0, ps. rewrite Hp'. split; [done|].
  destruct (String.eqb_spec u (username p0)) as [->|Hu];
    destruct Hcount as [Hx Ho]; rewrite Hx, Ho.
  - split; lia.
  - assert (o_count g + 1 ≤ x_count g) as Hpre.
    { apply Hturn; [done|]. rewrite Hn. congruence. }
    split; [lia|]. intros Hfin Hnext. exfalso. apply Hnext.
    subst fin. rewrite Hfin in Hn'. rewrite Hn'.
    by rewrite (other_player_first g u p0 ps).
Qed.

Lemma reachable_room_inv s : reachable s → store_inv room_inv s.
Proof.
  induction 1 as [|s token user _ IH|s rid p _ IH|s rid u r c _ IH].
  - apply store_inv_empty.
  - simpl. apply store_inv_insert; [done | apply room_inv_fresh].
  - unfold join_game. destruct (s !! rid) as [g|] eqn:Hg; [|done].
    destruct (Nat.leb _ _); [done|].
    destruct (bool_decide _); [done|].
    destruct (finished g); [done|]. simpl.
    apply store_inv_insert; [done|]. apply room_inv_join. by eapply IH.
  - unfold move_in_store, get_game.
    destruct (s !! rid) as [g|] eqn:Hg; [|done].
    pose proof (room_inv_move g u r c (IH _ _ Hg)) as Hinv.
    destruct (make_move g u r c) as [g' [e|st]]; simpl in *.
    + by apply store_inv_insert.
    + unfold save_game. by repeat apply store_inv_insert.
Qed.

Lemma duo_inv_fresh token user :
  duo_inv (mkRoom token [user] empty_board (Some (username user)) false None []).
Proof.
  split; [apply empty_board_3x3|]. exists user, []. simpl.
  unfold x_count, o_count. simpl.
  rewrite !count_mark_empty_board by done.
  split; [done|]. split; [apply NoDup_singleton|]. split; [lia|].
  intros _. by rewrite decide_True.
Qed.

Lemma duo_inv_join g p :
  username p ∉ username <$> players g →
  duo_inv g → duo_inv (set_players (players g ++ [p]) g).
Proof.
  intros Hnew (H3 & p0 & ps & Hp & Hnd & Hle & Hturn). split; [done|].
  exists p0, (ps ++ [p]). simpl. split; [by rewrite Hp|].
  split; [|done]. rewrite fmap_app.
  apply NoDup_app. split; [done|]. split; [|apply NoDup_singleton].
  intros x Hx Hx'. apply list_elem_of_singleton in Hx'. by subst x.
Qed.

Lemma duo_inv_move g u r c :
  length (players g) = 2 → duo_inv g → duo_inv (make_move g u r c).1.
Proof.
  intros Hlen (H3 & p0 & ps & Hp & Hnd & Hle & Hturn).
  destruct (make_move g u r c) as [g' [e|st]] eqn:Hm; simpl.
  { apply make_move_3x3_raises in Hm as ->; [|done].
    split; [done|]. by exists p0, ps. }
  destruct ps as [|p1 [|? ?]]; rewrite Hp in Hlen; simpl in Hlen; try lia.
  assert (username p1 ≠ username p0) as Hne.
  { rewrite Hp in Hnd. simpl in Hnd. apply NoDup_cons in Hnd as [Hnot _].
    intros Heq. apply Hnot. rewrite Heq. by left. }
  pose proof (make_move_counts _ _ _ _ _ _ _ _ Hm Hp) as Hcount.
  apply make_move_Ok in Hm
    as (Hf & Hn & _ & _ & w & fin & _ & _ & Hg' & _).
  assert (players g' = players g ∧ finished g' = fin ∧
          board g' = place (board g) (Z.to_nat r) (Z.to_nat c) (mark_of g u) ∧
          next_turn g' = if fin then next_turn g else Some (other_player g u))
    as (Hp' & Hf' & Hb' & Hn') by by rewrite Hg'.
  clear Hg'. split; [rewrite Hb'; by apply place_3x3|].
  exists p0, [p1]. rewrite Hp'. split; [done|]. split; [done|].
  specialize (Hturn Hf). rewrite Hn in Hturn.
  destruct (String.eqb_spec u (username p0)) as [Hu|Hu];
    destruct Hcount as [Hx Ho]; rewrite Hx, Ho.
  - rewrite decide_True in Hturn by congruence.
    split; [lia|]. intros Hfin. subst fin. rewrite Hfin in Hn'. rewrite Hn'.
    rewrite (other_player_second g u p0 p1) by done.
    rewrite decide_False by congruence. lia.
  - rewrite decide_False in Hturn by congruence.
    split; [lia|]. intros Hfin. subst fin. rewrite Hfin in Hn'. rewrite Hn'.
    rewrite (other_player_first g u p0 [p1]) by done.
    rewrite decide_True by done. lia.
Qed.

Lemma reachable_duo_inv s : reachable_duo s → store_inv duo_inv s.
Proof.
  induction 1 as [|s token user _ IH|s rid p _ IH|s rid g u r c _ IH Hg Hlen].
  - apply store_inv_empty.
  - simpl. apply store_inv_insert; [done | apply duo_inv_fresh].
  - unfold join_game. destruct (s !! rid) as [g|] eqn:Hg; [|done].
    destruct (Nat.leb _ _); [done|].
    case_bool_decide as Hin; [done|].
    destruct (finished g); [done|]. simpl.
    apply store_inv_insert; [done|]. apply duo_inv_join; [done|]. by eapply IH.
  - unfold move_in_store, get_game. rewrite Hg.
    pose proof (duo_inv_move g u r c Hlen (IH _ _ Hg)) as Hinv.
    destruct (make_move g u r c) as [g' [e|st]]; simpl in *.
    + by apply store_inv_insert.
    + unfold save_game. by repeat apply store_inv_insert.
Qed.

(** ** Mark counts in reachable rooms *)

Lemma make_move_players g u r c : players (make_move g u r c).1 = players g.
Proof.
  unfold make_move.
  repeat match goal with
    | |- context [if ?b then _ else _] => destruct b; try done
    | |- context [match ?x with inl _ => _ | inr _ => _ end] =>
        destruct x as [?|?]; try done
    | |- context [let '(_, _) := ?x in _] => destruct x
    end.
Qed.

Lemma move_in_store_players (s : Store) g u r c :
  s !! rid0 = Some g → room_id g = rid0 →
  ∃ g', (move_in_store s rid0 u r c).1 !! rid0 = Some g'
        ∧ players g' = players g ∧ room_id g' = rid0.
Proof.
  intros Hg Hid. unfold move_in_store, get_game. rewrite Hg.
  pose proof (make_move_players g u r c) as Hp.
  assert (room_id (make_move g u r c).1 = room_id g) as Hr.
  { unfold make_move.
    repeat match goal with
      | |- context [if ?b then _ else _] => destruct b; try done
      | |- context [match ?x with inl _ => _ | inr _ => _ end] =>
          destruct x as [?|?]; try done
      | |- context [let '(_, _) := ?x in _] => destruct x
      end. }
  destruct (make_move g u r c) as [g' [e|st]]; simpl in *; exists g'.
  - by rewrite lookup_insert_eq, Hr.
  - unfold save_game. by rewrite Hr, Hid, lookup_insert_eq.
Qed.

Lemma reachable_duo_play (s : Store) g ms :
  reachable_duo s → s !! rid0 = Some g → room_id g = rid0 →
  length (players g) = 2 →
  reachable_duo (play s ms).
Proof.
  revert s g. induction ms as [|[[u r] c] ms IH]; intros s g Hs Hg Hid Hlen; [done|].
  simpl.
  destruct (move_in_store_players s g u r c Hg Hid) as (g' & Hg' & Hp' & Hid').
  apply (IH _ g'); try done.
  - by eapply duo_move.
  - by rewrite Hp'.
Qed.

Lemma reachable_solo_twice : reachable solo_twice.
Proof. apply reachable_play, reach_create, reach_empty. Qed.

Lemma reachable_duo_after_win : reachable_duo after_win.
Proof.
  unfold after_win, before_win, play. rewrite <- foldl_app.
  apply (reachable_duo_play duo_store duo_room).
  - apply duo_join, duo_create, duo_empty.
  - vm_compute. reflexivity.
  - reflexivity.
  - reflexivity.
Qed.

(** C5, as stated, fails: Alice, alone in her room, keeps the turn and
    places two X in a row. *)
Lemma solo_moves_unbalanced :
  reachable solo_twice
  ∧ solo_twice !! rid0 = Some solo_twice_room
  ∧ ¬ counts_balanced solo_twice_room.
Proof.
  split; [apply reachable_solo_twice|]. split; [vm_compute; reflexivity|].
  unfold counts_balanced. vm_compute. intros [_ H].
  repeat match goal with H : le _ _ |- _ => inversion H; clear H end.
Qed.

(** C5, as the code has it: in every room of a reachable registry X is
    never behind O; the two counts differ by at most 1 as long as moves are
    made only in rooms that have both participants. *)
Theorem mark_counts_reachable (s : Store) (rid : string) (g : GameRoom) :
  s !! rid = Some g →
  (reachable s → o_count g ≤ x_count g) ∧
  (reachable_duo s → counts_balanced g).
Proof.
  intros Hg. split; intros Hs.
  - destruct (reachable_room_inv s Hs rid g Hg) as (_ & p0 & ps & _ & Hle & _).
    done.
  - destruct (reachable_duo_inv s Hs rid g Hg)
      as (_ & p0 & ps & _ & _ & Hle & _).
    done.
Qed.

Lemma after_win_room_stored : after_win !! rid0 = Some after_win_room.
Proof. vm_compute. reflexivity. Qed.

Lemma mark_counts_reachable_witness :
  o_count after_win_room ≤ x_count after_win_room
  ∧ counts_balanced after_win_room.
Proof.
  destruct (mark_counts_reachable after_win rid0 after_win_room
              after_win_room_stored) as [H1 H2].
  exact (conj (H1 reachable_after_win) (H2 reachable_duo_after_win)).
Defined.

(** ** The winner field *)

Lemma mark_at_marks b i j :
  Forall (Forall is_mark_or_empty) b → is_mark_or_empty (mark_at b i j).
Proof.
  intros Hb. unfold mark_at.
  destruct (b !! i) as [line|] eqn:Hi; simpl; [|by left].
  destruct (line !! j) as [v|] eqn:Hj; simpl; [|by left].
  pose proof (Forall_lookup_1 (Forall is_mark_or_empty) b i line Hb Hi) as Hline.
  exact (Forall_lookup_1 is_mark_or_empty line j v Hline Hj).
Qed.

Lemma scan_order_heads b :
  Forall (Forall is_mark_or_empty) b →
  Forall (λ l, is_mark_or_empty (hd "" l)) (scan_order b).
Proof.
  intros Hb. unfold scan_order.
  repeat (apply Forall_cons_2; [simpl; by apply mark_at_marks|]).
  apply Forall_nil_2.
Qed.

Lemma has_line_marks b m :
  Forall (Forall is_mark_or_empty) b → has_line b m → m = "X" ∨ m = "O".
Proof.
  intros Hb (l & Hl & Hm & ->).
  pose proof (scan_order_heads b Hb) as Hall.
  rewrite Forall_forall in Hall. specialize (Hall _ Hl). simpl in Hall.
  destruct Hall as [?|?]; done.
Qed.

Lemma marks_inv_move g u r c : marks_inv g → marks_inv (make_move g u r c).1.
Proof.
  intros (H3 & Hcells & Hw).
  destruct (make_move g u r c) as [g' [e|st]] eqn:Hm; simpl.
  { by apply make_move_3x3_raises in Hm as ->. }
  apply make_move_Ok in Hm as (_ & _ & _ & _ & w & fin & _ & Hcw & -> & _).
  simpl in *.
  assert (Forall (Forall is_mark_or_empty)
            (place (board g) (Z.to_nat r) (Z.to_nat c) (mark_of g u))) as Hcells'.
  { unfold place. destruct (board g !! Z.to_nat r) as [line|] eqn:Hl; [|done].
    apply Forall_insert; [done|]. apply Forall_insert.
    - by eapply Forall_lookup_1.
    - unfold mark_of, is_mark_or_empty. destruct (players g); [by auto|].
      destruct (String.eqb _ _); auto. }
  split; [by apply place_3x3|]. split; [done|].
  destruct w as [m|]; [|by left]. right.
  apply (check_winner_win_line _ _ _ (place_3x3 _ _ _ _ H3)) in Hcw.
  destruct (has_line_marks _ _ Hcells' Hcw) as [->| ->]; auto.
Qed.

Lemma reachable_marks_inv s : reachable s → store_inv marks_inv s.
Proof.
  induction 1 as [|s token user _ IH|s rid p _ IH|s rid u r c _ IH].
  - apply store_inv_empty.
  - simpl. apply store_inv_insert; [done|].
    split; [apply empty_board_3x3|]. split; [|by left].
    unfold empty_board. simpl. repeat constructor.
  - unfold join_game. destruct (s !! rid) as [g|] eqn:Hg; [|done].
    destruct (Nat.leb _ _); [done|].
    destruct (bool_decide _); [done|].
    destruct (finished g); [done|]. simpl.
    apply store_inv_insert; [done|]. by apply (IH _ _ Hg).
  - unfold move_in_store, get_game.
    destruct (s !! rid) as [g|] eqn:Hg; [|done].
    pose proof (marks_inv_move g u r c (IH _ _ Hg)) as Hinv.
    destruct (make_move g u r c) as [g' [e|st]]; simpl in *.
    + by apply store_inv_insert.
    + unfold save_game. by repeat apply store_inv_insert.
Qed.

(** In every room of a reachable registry the winner field, when present,
    is the mark "X" or "O" that [check_winner] returned, not a user name. *)
Lemma winner_is_a_mark (s : Store) rid g w :
  reachable s → s !! rid = Some g → winner g = Some w → w = "X" ∨ w = "O".
Proof.
  intros Hs Hg Hw.
  destruct (reachable_marks_inv s Hs rid g Hg) as (_ & _ & [H|[H|H]]);
    rewrite Hw in H; [done| |]; injection H as ->; auto.
Qed.

(** C1 fails on the game of the specification: after A:(0,0), B:(1,1),
    A:(0,1), B:(2,2), A:(0,2) the room of Alice and Bob is finished and its
    winner field holds "X", which is neither participant. *)
Theorem winner_not_a_participant :
  reachable after_win
  ∧ after_win !! rid0 = Some after_win_room
  ∧ players after_win_room = [alice; bob]
  ∧ finished after_win_room = true
  ∧ winner after_win_room = Some "X"
  ∧ ¬ winner_is_participant after_win_room.
Proof.
  split; [apply reachable_after_win|].
  split; [apply after_win_room_stored|].
  do 3 (split; [reflexivity|]).
  intros Hclaim. specialize (Hclaim "X" eq_refl).
  unfold after_win_room in Hclaim. simpl in Hclaim.
  apply elem_of_cons in Hclaim as [Heq|Hclaim]; [discriminate Heq|].
  apply elem_of_cons in Hclaim as [Heq|Hclaim]; [discriminate Heq|].
  by apply elem_of_nil in Hclaim.
Qed.

(** ** Further invariants of reachable registries *)

Lemma make_move_room_id g u r c : room_id (make_move g u r c).1 = room_id g.
Proof.
  unfold make_move.
  repeat match goal with
    | |- context [if ?b then _ else _] => destruct b; try done
    | |- context [match ?x with inl _ => _ | inr _ => _ end] =>
        destruct x as [?|?]; try done
    | |- context [let '(_, _) := ?x in _] => destruct x
    end.
Qed.

Lemma reachable_keyed s : reachable s → keyed s.
Proof.
  induction 1 as [|s token user _ IH|s rid p _ IH|s rid u r c _ IH];
    intros k g' Hk.
  - by rewrite lookup_empty in Hk.
  - simpl in Hk. destruct (decide (token = k)) as [->|Hne].
    + rewrite lookup_insert_eq in Hk. by injection Hk as <-.
    + rewrite lookup_insert_ne in Hk by done. by apply IH.
  - unfold join_game in Hk. destruct (s !! rid) as [g|] eqn:Hg; [|by apply IH].
    destruct (Nat.leb _ _); [by apply IH|].
    destruct (bool_decide _); [by apply IH|].
    destruct (finished g); [by apply IH|]. simpl in Hk.
    destruct (decide (rid = k)) as [->|Hne].
    + rewrite lookup_insert_eq in Hk. injection Hk as <-. simpl. by apply IH.
    + rewrite lookup_insert_ne in Hk by done. by apply IH.
  - unfold move_in_store, get_game in Hk.
    destruct (s !! rid) as [g|] eqn:Hg; [|by apply IH].
    pose proof (make_move_room_id g u r c) as Hid.
    pose proof (IH _ _ Hg) as Hrid.
    destruct (make_move g u r c) as [g1 [e|st]]; simpl in *.
    + destruct (decide (rid = k)) as [->|Hne].
      * rewrite lookup_insert_eq in Hk. injection Hk as <-. congruence.
      * rewrite lookup_insert_ne in Hk by done. by apply IH.
    + unfold save_game in Hk. rewrite Hid, Hrid in Hk.
      destruct (decide (rid = k)) as [->|Hne].
      * rewrite lookup_insert_eq in Hk. injection Hk as <-. congruence.
      * rewrite !lookup_insert_ne in Hk by done. by apply IH.
Qed.

(** Induction over the rooms of reachable registries. *)
Lemma reachable_rooms_ind (P : GameRoom → Prop) :
  (∀ token user,
     P (mkRoom token [user] empty_board (Some (username user)) false None [])) →
  (∀ g p, P g → length (players g) < 2 → username p ∉ names g →
          finished g = false → P (set_players (players g ++ [p]) g)) →
  (∀ g u r c g' st, P g → is_3x3 (board g) →
                    make_move g u r c = (g', Ok st) → P g') →
  ∀ s, reachable s → store_inv P s.
Proof.
  intros Hfresh Hjoin Hmove s Hs.
  induction Hs as [|s token user Hs IH|s rid p Hs IH|s rid u r c Hs IH].
  - apply store_inv_empty.
  - simpl. by apply store_inv_insert.
  - unfold join_game. destruct (s !! rid) as [g|] eqn:Hg; [|done].
    destruct (Nat.leb 2 (length (players g))) eqn:Hlen; [done|].
    case_bool_decide as Hin; [done|].
    destruct (finished g) eqn:Hf; [done|]. simpl.
    apply store_inv_insert; [done|]. apply Hjoin; try done.
    + by eapply IH.
    + apply Nat.leb_gt in Hlen. lia.
  - unfold move_in_store, get_game.
    destruct (s !! rid) as [g|] eqn:Hg; [|done].
    destruct (reachable_room_inv s Hs rid g Hg) as [H3 _].
    destruct (make_move g u r c) as [g' [e|st]] eqn:Hm; simpl.
    + apply make_move_3x3_raises in Hm as ->; [|done].
      apply store_inv_insert; [done | by eapply IH].
    + assert (P g') by (eapply Hmove; [by eapply IH|done|done]).
      unfold save_game. by repeat apply store_inv_insert.
Qed.

Lemma other_player_in g u : u ∈ names g → other_player g u ∈ names g.
Proof.
  intros Hu. unfold other_player, names in *.
  destruct (filter (λ v, v ≠ u) (username <$> players g)) as [|v vs] eqn:Hf;
    [done|].
  assert (v ∈ filter (λ v, v ≠ u) (username <$> players g)) as Hv
    by (rewrite Hf; apply elem_of_cons; by left).
  by apply list_elem_of_filter in Hv as [_ Hv].
Qed.

Lemma count_two_marks x y l : x ≠ y → count x l + count y l ≤ length l.
Proof.
  intros Hxy. induction l as [|z l IH]; [done|].
  rewrite !count_cons. simpl. repeat case_decide; subst; try done; lia.
Qed.

Lemma marks_at_most_nine b : is_3x3 b → count_mark "X" b + count_mark "O" b ≤ 9.
Proof.
  intros H. unfold count_mark.
  etrans; [by apply count_two_marks|].
  apply is_3x3_cells in H as (a0&a1&a2&b0&b1&b2&c0&c1&c2&->). done.
Qed.

Lemma room_ok_fresh token user :
  room_ok (mkRoom token [user] empty_board (Some (username user)) false None []).
Proof.
  unfold room_ok, names, x_count, o_count. simpl.
  rewrite !count_mark_empty_board by done.
  split; [lia|]. split; [apply NoDup_singleton|].
  split; [exists (username user); split; [done | apply elem_of_cons; by left]|].
  done.
Qed.

Lemma room_ok_join g p :
  room_ok g → length (players g) < 2 → username p ∉ names g →
  room_ok (set_players (players g ++ [p]) g).
Proof.
  intros (Hlen & Hnd & (u & Hn & Hu) & Hlog & Hcw) Hlt Hnew.
  unfold room_ok, names in *. simpl. rewrite length_app, fmap_app. simpl.
  split; [lia|]. split.
  - apply NoDup_app. split; [done|]. split; [|apply NoDup_singleton].
    intros x Hx Hx'. apply list_elem_of_singleton in Hx'. by subst x.
  - split; [|done]. exists u. split; [done|]. apply elem_of_app. by left.
Qed.

Lemma room_ok_move g u r c g' st :
  room_ok g → make_move g u r c = (g', Ok st) → room_ok g'.
Proof.
  intros (Hlen & Hnd & (u0 & Hn0 & Hu0) & Hlog & Hcw) Hm.
  destruct (players g) as [|p0 ps] eqn:Hp; [simpl in Hlen; lia|].
  pose proof (make_move_counts _ _ _ _ _ _ _ _ Hm Hp) as Hcount.
  apply make_move_Ok in Hm
    as (Hf & Hn & _ & _ & w & fin & _ & Hw & Hg' & _).
  assert (players g' = players g ∧ finished g' = fin ∧ winner g' = w ∧
          board g' = place (board g) (Z.to_nat r) (Z.to_nat c) (mark_of g u) ∧
          moves g' = moves g ++ [mkMove u r c] ∧
          next_turn g' = if fin then next_turn g else Some (other_player g u))
    as (Hp' & Hf' & Hw' & Hb' & Hm' & Hn') by by rewrite Hg'.
  clear Hg'. unfold room_ok, names in *. rewrite Hp', Hm', Hn', Hb', Hf', Hw'.
  split; [by rewrite Hp|]. split; [done|]. split; [|split; [|done]].
  - rewrite Hn in Hn0. injection Hn0 as <-. destruct fin.
    + by exists u.
    + exists (other_player g u). split; [done|]. by apply other_player_in.
  - rewrite length_app. simpl.
    destruct (String.eqb u (username p0)); destruct Hcount as [-> ->]; lia.
Qed.

Lemma reachable_room_ok s : reachable s → store_inv room_ok s.
Proof.
  apply reachable_rooms_ind.
  - apply room_ok_fresh.
  - intros g p Hg Hlt Hnew _. by apply room_ok_join.
  - intros g u r c g' st Hg _ Hm. by eapply room_ok_move.
Qed.

(** X1: every room of a reachable registry is stored under its own
    identifier, has one or two participants with pairwise distinct names,
    and its next_turn names one of them. *)
Theorem reachable_rooms_well_formed (s : Store) (rid : string) (g : GameRoom) :
  reachable s → s !! rid = Some g →
  room_id g = rid ∧
  1 ≤ length (players g) ≤ 2 ∧
  NoDup (names g) ∧
  ∃ u, next_turn g = Some u ∧ u ∈ names g.
Proof.
  intros Hs Hg.
  destruct (reachable_room_ok s Hs rid g Hg) as (Hlen & Hnd & Hturn & _).
  split; [by apply (reachable_keyed s Hs)|]. done.
Qed.

Lemma reachable_rooms_well_formed_witness :
  room_id after_win_room = rid0 ∧
  1 ≤ length (players after_win_room) ≤ 2 ∧
  NoDup (names after_win_room) ∧
  ∃ u, next_turn after_win_room = Some u ∧ u ∈ names after_win_room.
Proof.
  exact (reachable_rooms_well_formed after_win rid0 after_win_room
           reachable_after_win after_win_room_stored).
Defined.

(** X2: in every room of a reachable registry the move log has exactly one
    entry per mark on the board, hence at most nine entries. *)
Theorem move_log_counts_marks (s : Store) (rid : string) (g : GameRoom) :
  reachable s → s !! rid = Some g →
  length (moves g) = x_count g + o_count g ∧ length (moves g) ≤ 9.
Proof.
  intros Hs Hg.
  destruct (reachable_room_ok s Hs rid g Hg) as (_ & _ & _ & Hlog & _).
  destruct (reachable_room_inv s Hs rid g Hg) as [H3 _].
  split; [done|]. rewrite Hlog. by apply marks_at_most_nine.
Qed.

Lemma move_log_counts_marks_witness :
  length (moves after_win_room) = x_count after_win_room + o_count after_win_room
  ∧ length (moves after_win_room) ≤ 9.
Proof.
  exact (move_log_counts_marks after_win rid0 after_win_room
           reachable_after_win after_win_room_stored).
Defined.

(** The two outcomes of [check_winner] on a 3x3 board. *)
Lemma check_winner_cases b :
  is_3x3 b →
  (∃ m, has_line b m ∧ check_winner b = Ok (Some m, true)) ∨
  ((∀ m, ¬ has_line b m) ∧ check_winner b = Ok (None, board_full b)).
Proof.
  intros H. rewrite (check_winner_find b H).
  destruct (list_find winning_line (scan_order b)) as [[k l0]|] eqn:E.
  - left. apply list_find_Some in E as (Hk & (m0 & Hm0) & _).
    exists m0. rewrite (mono_hd m0 l0 Hm0). split; [|done].
    exists l0. split; [by eapply list_elem_of_lookup_2 | done].
  - right. split; [by apply no_line_iff | done].
Qed.

(** X3: in every room of a reachable registry the finished flag and the
    winner field are what [check_winner] says of the board: the room is
    finished exactly when a line is monochrome or the board is full, a
    present winner is the mark of a monochrome line, and an absent winner
    means that no line is monochrome. *)
Theorem flags_follow_board (s : Store) (rid : string) (g : GameRoom) :
  reachable s → s !! rid = Some g →
  check_winner (board g) = Ok (winner g, finished g) ∧
  (finished g = true ↔ (∃ m, has_line (board g) m) ∨ occupied (board g)) ∧
  (∀ m, winner g = Some m → has_line (board g) m) ∧
  (winner g = None ↔ ∀ m, ¬ has_line (board g) m).
Proof.
  intros Hs Hg.
  destruct (reachable_room_ok s Hs rid g Hg) as (_ & _ & _ & _ & Hcw).
  destruct (reachable_room_inv s Hs rid g Hg) as [H3 _].
  pose proof (board_full_occupied _ H3) as Hfull.
  split; [done|].
  destruct (check_winner_cases _ H3) as [(m0 & Hline & Hc)|[Hno Hc]];
    rewrite Hc in Hcw; injection Hcw as Hw Hf; rewrite <- Hw, <- Hf.
  - split; [split; [intros _; left; by exists m0 | done]|].
    split; [by intros m [= <-]|].
    split; [done|]. intros Hn. destruct (Hn m0 Hline).
  - split.
    + rewrite Hfull. split; [by right|].
      intros [[m Hm]|Ho]; [destruct (Hno m Hm) | done].
    + split; [done|]. done.
Qed.

Lemma flags_follow_board_witness :
  check_winner (board after_win_room)
  = Ok (winner after_win_room, finished after_win_room).
Proof.
  exact (proj1 (flags_follow_board after_win rid0 after_win_room
                  reachable_after_win after_win_room_stored)).
Defined.

(** ** At most one mark completes a line *)

Lemma mark_at_cell b i j :
  mark_at b i j = match cell b i j with inr v => v | inl _ => "" end.
Proof.
  unfold mark_at, cell, index, bind.
  destruct (b !! i) as [line|]; simpl; [|done]. by destruct (line !! j).
Qed.

Lemma mark_at_place_eq b i j m v :
  cell b i j = Ok v → mark_at (place b i j m) i j = m.
Proof. intros H. by rewrite mark_at_cell, (cell_place_eq b i j m v H). Qed.

Lemma mark_at_place_ne b i j m i' j' :
  (i', j') ≠ (i, j) → mark_at (place b i j m) i' j' = mark_at b i' j'.
Proof. intros H. by rewrite !mark_at_cell, (cell_place_ne b i j m i' j' H). Qed.

Lemma scan_order_coords b :
  scan_order b
  = fmap (M:=list) (fmap (M:=list) (λ ij, mark_at b ij.1 ij.2)) line_coords.
Proof. reflexivity. Qed.

Lemma mono_lookup m l k x : mono m l → l !! k = Some x → x = m.
Proof.
  intros [_ ->] Hk.
  destruct k as [|[|[|k]]]; simpl in Hk; by try injection Hk as <-.
Qed.

(** Placing a mark on a board without a monochrome line can only complete
    lines in that mark. *)
Lemma lines_after_place b i j m v m' :
  cell b i j = Ok v → (∀ x, ¬ has_line b x) →
  has_line (place b i j m) m' → m' = m.
Proof.
  intros Hc Hno (l & Hl & Hm).
  rewrite scan_order_coords in Hl.
  apply list_elem_of_fmap in Hl as (lc & -> & Hlc).
  destruct (decide ((i, j) ∈ lc)) as [Hin|Hout].
  - apply list_elem_of_lookup in Hin as [k Hk].
    assert (mark_at (place b i j m) i j = m') as Heq.
    { apply (mono_lookup m' _ k _ Hm). by rewrite list_lookup_fmap, Hk. }
    by rewrite (mark_at_place_eq b i j m v Hc) in Heq.
  - destruct (Hno m'). exists ((λ ij, mark_at b ij.1 ij.2) <$> lc). split.
    + rewrite scan_order_coords. by apply list_elem_of_fmap_2.
    + destruct Hm as [Hne Heq]. split; [done|]. rewrite <- Heq.
      apply list_fmap_ext. intros k [i' j'] Hk. simpl.
      symmetry. apply mark_at_place_ne. intros [= -> ->].
      apply Hout. by eapply list_elem_of_lookup_2.
Qed.

Lemma empty_board_no_line m : ¬ has_line empty_board m.
Proof.
  intros (l & Hl & Hne & ->).
  apply list_elem_of_lookup in Hl as [k Hk].
  do 8 (destruct k as [|k]; [by injection Hk as <- |]). done.
Qed.

Lemma one_winner_move g u r c g' st :
  room_ok g → is_3x3 (board g) →
  make_move g u r c = (g', Ok st) → one_winner (board g').
Proof.
  intros (_ & _ & _ & _ & Hcw) H3 Hm.
  apply make_move_Ok in Hm as (Hf & _ & _ & Hc & w & fin & _ & _ & -> & _).
  simpl. rewrite Hf in Hcw.
  assert (∀ x, ¬ has_line (board g) x) as Hno.
  { destruct (check_winner_cases _ H3) as [(m0 & _ & Hc0)|[Hno _]]; [|done].
    rewrite Hc0 in Hcw. discriminate. }
  intros m m' Hl Hl'.
  rewrite (lines_after_place _ _ _ _ _ _ Hc Hno Hl).
  by rewrite (lines_after_place _ _ _ _ _ _ Hc Hno Hl').
Qed.

Lemma reachable_one_winner s :
  reachable s → store_inv (λ g, room_ok g ∧ one_winner (board g)) s.
Proof.
  apply reachable_rooms_ind.
  - intros token user. split; [apply room_ok_fresh|].
    intros m m' Hl _. by destruct (empty_board_no_line m).
  - intros g p [Hok Hone] Hlt Hnew _. split; [by apply room_ok_join | done].
  - intros g u r c g' st [Hok Hone] H3 Hm.
    split; [by eapply room_ok_move | by eapply one_winner_move].
Qed.

(** X4: on the board of every room of a reachable registry no two
    different marks complete a line, so [check_winner] reports a win for a
    mark exactly when a line holds that mark, a draw exactly when there is
    no such line and the board is full, and play in progress otherwise; the
    room's winner field is a mark exactly when a line holds it. *)
Theorem reachable_board_single_winner
    (s : Store) (rid : string) (g : GameRoom) :
  reachable s → s !! rid = Some g →
  one_winner (board g) ∧
  evaluate_spec (board g) ∧
  ∀ m, winner g = Some m ↔ has_line (board g) m.
Proof.
  intros Hs Hg.
  destruct (reachable_one_winner s Hs rid g Hg) as [(_ & _ & _ & _ & Hcw) Hone].
  destruct (reachable_room_inv s Hs rid g Hg) as [H3 _].
  pose proof (board_full_occupied _ H3) as Hfull.
  split; [done|].
  destruct (check_winner_cases _ H3) as [(m0 & Hline & Hc)|[Hno Hc]].
  - rewrite Hc in Hcw. injection Hcw as Hw Hf. split; [split; [|split]|].
    + intros m. rewrite Hc. split; [by intros [= <-]|].
      intros Hm. by rewrite (Hone m m0 Hm Hline).
    + rewrite Hc. split; [done|]. intros [Hn _]. destruct (Hn m0 Hline).
    + rewrite Hc. split; [done|]. intros [Hn _]. destruct (Hn m0 Hline).
    + intros m. rewrite <- Hw. split; [by intros [= <-]|].
      intros Hm. by rewrite (Hone m m0 Hm Hline).
  - rewrite Hc in Hcw. injection Hcw as Hw Hf. split; [split; [|split]|].
    + intros m. rewrite Hc. split; [done|]. intros Hm. destruct (Hno m Hm).
    + rewrite Hc. split.
      * intros [= Hb]. split; [done | by apply Hfull].
      * intros [_ Ho]. apply Hfull in Ho. by rewrite Ho.
    + rewrite Hc. split.
      * intros [= Hb]. split; [done|]. intros Ho. apply Hfull in Ho. congruence.
      * intros [_ Ho]. destruct (board_full (board g)) eqn:Hb; [|done].
        destruct Ho. by apply Hfull.
    + intros m. rewrite <- Hw. split; [done|]. intros Hm. destruct (Hno m Hm).
Qed.

Lemma reachable_board_single_winner_witness :
  one_winner (board after_win_room) ∧
  evaluate_spec (board after_win_room) ∧
  ∀ m, winner after_win_room = Some m ↔ has_line (board after_win_room) m.
Proof.
  exact (reachable_board_single_winner after_win rid0 after_win_room
           reachable_after_win after_win_room_stored).
Defined.

(** ** Turns, finished games and read-back *)

(** X5: an accepted move that does not end the game hands the turn over:
    with two participants to the other one, with a single participant back
    to that participant; the returned state names the same next mover. *)
Theorem make_move_passes_turn
    (g g' : GameRoom) (u : string) (r c : Z) (st : GameState) :
  make_move g u r c = (g', Ok st) → st_finished st = false →
  st_next_turn st = next_turn g' ∧
  (∀ p0 p1, players g = [p0; p1] → username p0 ≠ username p1 →
     (u = username p0 → next_turn g' = Some (username p1)) ∧
     (u = username p1 → next_turn g' = Some (username p0))) ∧
  (∀ p0, players g = [p0] → next_turn g' = Some (username p0)).
Proof.
  intros Hm Hfin.
  apply make_move_Ok in Hm as (_ & _ & _ & _ & w & fin & _ & _ & -> & ->).
  simpl in *. subst fin. split; [done|]. split.
  - intros p0 p1 Hp Hne. split; intros ->.
    + by rewrite (other_player_second g _ p0 p1).
    + rewrite (other_player_first g _ p0 [p1]); [done|done|congruence].
  - intros p0 Hp. unfold other_player. rewrite Hp. simpl.
    rewrite filter_cons, filter_nil. case_decide; [done|].
    f_equal. by destruct (decide (username p0 = u)); [|tauto].
Qed.

Lemma make_move_passes_turn_witness :
  st_next_turn
    (mkState [["X"; ""; ""]; [""; ""; ""]; [""; ""; ""]] (Some "bob") None false)
  = next_turn
      (mkRoom rid0 [alice; bob] [["X"; ""; ""]; [""; ""; ""]; [""; ""; ""]]
         (Some "bob") false None [mkMove "alice" 0 0]).
Proof.
  refine (proj1 (make_move_passes_turn duo_room _ "alice" 0 0 _ _ _)).
  - vm_compute. reflexivity.
  - reflexivity.
Defined.

(** X6: once a move has ended the game, every further move attempt on the
    room, by anyone and anywhere, is rejected with GameFinished and leaves
    the room as it is. *)
Theorem finished_room_rejects_moves
    (g g' : GameRoom) (u : string) (r c : Z) (st : GameState) :
  make_move g u r c = (g', Ok st) → st_finished st = true →
  ∀ u' r' c', make_move g' u' r' c' = (g', raise GameFinished).
Proof.
  intros Hm Hfin u' r' c'.
  apply make_move_Ok in Hm as (_ & _ & _ & _ & w & fin & _ & _ & -> & ->).
  simpl in Hfin. subst fin. reflexivity.
Qed.

Lemma finished_room_rejects_moves_witness :
  make_move after_win_room "bob" 1 0 = (after_win_room, raise GameFinished).
Proof.
  refine (finished_room_rejects_moves before_win_room after_win_room
            "alice" 0 2 win_state _ _ "bob" 1%Z 0%Z).
  - vm_compute. reflexivity.
  - reflexivity.
Defined.

(** X7: the state returned by an accepted move request is the state that
    [get_game_state] reads back from the registry afterwards. *)
Theorem move_state_read_back
    (s s' : Store) (rid u : string) (r c : Z) (st : GameState) :
  move_in_store s rid u r c = (s', Some (Ok st)) →
  get_game_state s' rid = Some st.
Proof.
  unfold move_in_store, get_game_state, get_game.
  destruct (s !! rid) as [g|] eqn:Hg; [|done].
  destruct (make_move g u r c) as [g' [e|st']] eqn:Hm; [by intros [= <-]|].
  intros [= <- <-].
  assert (save_game (<[rid := g']> s) g' !! rid = Some g') as ->.
  { unfold save_game. destruct (decide (room_id g' = rid)) as [->|Hne].
    - by rewrite lookup_insert_eq.
    - by rewrite lookup_insert_ne, lookup_insert_eq. }
  apply make_move_Ok in Hm as (_ & _ & _ & _ & w & fin & _ & Hw & -> & ->).
  simpl. destruct fin; [done|].
  by apply check_winner_unfinished in Hw as ->.
Qed.

Lemma move_state_read_back_witness :
  get_game_state after_win rid0 = Some win_state.
Proof.
  refine (move_state_read_back before_win after_win rid0 "alice" 0 2 win_state _).
  vm_compute. reflexivity.
Defined.

(** X10: in a reachable registry, saving a room that [get_game] has just
    handed out changes nothing. *)
Theorem save_after_get_is_noop (s : Store) (rid : string) (g : GameRoom) :
  reachable s → get_game s rid = Some g → save_game s g = s.
Proof.
  intros Hs Hg. unfold get_game in Hg. unfold save_game.
  rewrite (reachable_keyed s Hs rid g Hg). by apply insert_id.
Qed.

Lemma save_after_get_is_noop_witness : save_game after_win after_win_room = after_win.
Proof.
  exact (save_after_get_is_noop after_win rid0 after_win_room
           reachable_after_win after_win_room_stored).
Defined.

(** ** Joining and creating rooms *)

(** X8: [join_game] fails with RoomNotFound for an unknown room, else with
    RoomFull for a room with two participants, else with AlreadyJoined for
    a name already in the room, else with RoomFinished; a failure leaves the
    registry as it was.  Otherwise the room gains the participant at the
    end of its list and nothing else in it, or in any other room, changes. *)
Theorem join_game_outcome
    (s s' : Store) (rid : string) (p : UserPublic) (res : result GameRoom) :
  join_game s rid p = (s', res) →
  match res with
  | inl e =>
      s' = s ∧
      ((e = RoomNotFound ∧ s !! rid = None) ∨
       ∃ g, s !! rid = Some g ∧
         ((e = RoomFull ∧ 2 ≤ length (players g)) ∨
          (e = AlreadyJoined ∧ length (players g) < 2 ∧ username p ∈ names g) ∨
          (e = RoomFinished ∧ length (players g) < 2 ∧ (username p ∉ names g)
           ∧ finished g = true)))
  | inr g' =>
      ∃ g, s !! rid = Some g ∧
        length (players g) < 2 ∧ (username p ∉ names g) ∧ finished g = false ∧
        players g' = players g ++ [p] ∧
        room_id g' = room_id g ∧ board g' = board g ∧
        next_turn g' = next_turn g ∧ finished g' = finished g ∧
        winner g' = winner g ∧ moves g' = moves g ∧
        s' !! rid = Some g' ∧
        ∀ rid', rid' ≠ rid → s' !! rid' = s !! rid'
  end.
Proof.
  unfold join_game, names.
  destruct (s !! rid) as [g|] eqn:Hg.
  2:{ intros [= <- <-]. split; [done|]. by left. }
  destruct (Nat.leb 2 (length (players g))) eqn:Hlen.
  { intros [= <- <-]. apply Nat.leb_le in Hlen. split; [done|].
    right. exists g. split; [done|]. by left. }
  apply Nat.leb_gt in Hlen.
  case_bool_decide as Hin.
  { intros [= <- <-]. split; [done|].
    right. exists g. split; [done|]. right. by left. }
  destruct (finished g) eqn:Hf.
  { intros [= <- <-]. split; [done|].
    right. exists g. split; [done|]. right. by right. }
  intros [= <- <-]. exists g. simpl.
  repeat (split; [done|]).
  split; [by rewrite lookup_insert_eq|].
  intros rid' Hne. by rewrite lookup_insert_ne.
Qed.

Lemma join_game_outcome_witness :
  ∃ g, solo_store !! rid0 = Some g ∧
    length (players g) < 2 ∧ (username bob ∉ names g) ∧ finished g = false ∧
    players duo_room = players g ++ [bob] ∧
    room_id duo_room = room_id g ∧ board duo_room = board g ∧
    next_turn duo_room = next_turn g ∧ finished duo_room = finished g ∧
    winner duo_room = winner g ∧ moves duo_room = moves g ∧
    duo_store !! rid0 = Some duo_room ∧
    ∀ rid', rid' ≠ rid0 → duo_store !! rid' = solo_store !! rid'.
Proof.
  refine (join_game_outcome solo_store duo_store rid0 bob (Ok duo_room) _).
  vm_compute. reflexivity.
Defined.

(** X9: a room just created can be joined by a user with another name,
    which gives a two-participant room with an empty board where it is the
    creator's turn; the creator cannot join it again, nobody can join it
    after that, and the joiner cannot make the first move. *)
Theorem create_then_join (s : Store) (token : string) (a b : UserPublic) :
  username b ≠ username a →
  let s1 := (create_game s token a).1 in
  let room := mkRoom token [a; b] empty_board (Some (username a)) false None [] in
  join_game s1 token a = (s1, raise AlreadyJoined) ∧
  join_game s1 token b = (<[token := room]> s1, Ok room) ∧
  (∀ c, join_game (<[token := room]> s1) token c
        = (<[token := room]> s1, raise RoomFull)) ∧
  (∀ r c, make_move room (username b) r c = (room, raise OutOfTurn)).
Proof.
  intros Hne. simpl. unfold join_game.
  rewrite !lookup_insert_eq. simpl.
  split; [|split; [|split]].
  - rewrite bool_decide_eq_true_2; [done|]. apply elem_of_cons. by left.
  - rewrite bool_decide_eq_false_2; [done|].
    intros Hin. apply list_elem_of_singleton in Hin. done.
  - done.
  - intros r c. unfold make_move, is_next. simpl.
    by rewrite (proj2 (String.eqb_neq _ _) Hne).
Qed.

Lemma create_then_join_witness :
  join_game solo_store rid0 alice = (solo_store, raise AlreadyJoined).
Proof.
  refine (proj1 (create_then_join ∅ rid0 alice bob _)). discriminate.
Defined.

(** ** The move log *)

Lemma mark_at_place_nonempty b i j m v i' j' :
  cell b i j = Ok v → m ≠ "" →
  mark_at b i' j' ≠ "" → mark_at (place b i j m) i' j' ≠ "".
Proof.
  intros Hc Hm Hold.
  destruct (decide ((i', j') = (i, j))) as [[= -> ->]|Hne].
  - by rewrite (mark_at_place_eq b i j m v Hc).
  - by rewrite (mark_at_place_ne b i j m i' j' Hne).
Qed.

Lemma log_inv_move g u r c g' st :
  log_inv g → make_move g u r c = (g', Ok st) → log_inv g'.
Proof.
  intros [Hok (p0 & ps & Hp & Hb & Hall & Hnd)] Hm.
  split; [by eapply room_ok_move|].
  destruct Hok as (_ & _ & (u0 & Hn0 & Hu0) & _).
  apply make_move_Ok in Hm as (_ & Hn & Hbd & Hc & w & fin & _ & _ & -> & _).
  rewrite Hn in Hn0. injection Hn0 as <-.
  unfold names in *. simpl. exists p0, ps. split; [done|]. split; [|split].
  - unfold replay. rewrite foldl_app. simpl. fold (replay (username p0) (moves g)).
    rewrite <- Hb. unfold mark_of. by rewrite Hp.
  - apply Forall_app. split.
    + eapply Forall_impl; [exact Hall|]. intros m (Hin & Hbnd & Hmark).
      split; [done|]. split; [done|].
      by apply (mark_at_place_nonempty _ _ _ _ "" _ _ Hc (mark_of_nonempty g u)).
    + apply Forall_singleton. simpl. split; [done|]. split; [done|].
      rewrite (mark_at_place_eq _ _ _ _ "" Hc). apply mark_of_nonempty.
  - rewrite fmap_app. apply NoDup_app. split; [done|]. simpl.
    split; [|apply NoDup_singleton].
    intros [r' c'] Hin Hin'. apply list_elem_of_singleton in Hin' as [= -> ->].
    apply list_elem_of_fmap in Hin as (m & [= Hr Hcl] & Hm).
    rewrite Forall_forall in Hall. destruct (Hall m Hm) as (_ & _ & Hmark).
    apply Hmark. rewrite <- Hr, <- Hcl, mark_at_cell. by rewrite Hc.
Qed.

Lemma reachable_log_inv s : reachable s → store_inv log_inv s.
Proof.
  apply reachable_rooms_ind.
  - intros token user. split; [apply room_ok_fresh|].
    exists user, []. simpl. split; [done|]. split; [done|].
    split; [apply Forall_nil_2 | apply NoDup_nil_2].
  - intros g p [Hok (p0 & ps & Hp & Hb & Hall & Hnd)] Hlt Hnew _.
    split; [by apply room_ok_join|].
    exists p0, (ps ++ [p]). unfold names. simpl.
    split; [by rewrite Hp|]. split; [done|]. split; [|done].
    eapply Forall_impl; [exact Hall|]. intros m (Hin & Hrest).
    split; [|done]. rewrite fmap_app. apply elem_of_app. by left.
  - intros g u r c g' st Hg _ Hm. by eapply log_inv_move.
Qed.

(** X11: in every room of a reachable registry the board is the move log
    replayed on the empty board, the creator's entries as "X" and every
    other entry as "O". *)
Theorem board_is_replay_of_log (s : Store) (rid : string) (g : GameRoom) :
  reachable s → s !! rid = Some g →
  ∃ p0 ps, players g = p0 :: ps ∧ board g = replay (username p0) (moves g).
Proof.
  intros Hs Hg.
  destruct (reachable_log_inv s Hs rid g Hg) as [_ (p0 & ps & Hp & Hb & _)].
  by exists p0, ps.
Qed.

Lemma board_is_replay_of_log_witness :
  ∃ p0 ps, players after_win_room = p0 :: ps
           ∧ board after_win_room = replay (username p0) (moves after_win_room).
Proof.
  exact (board_is_replay_of_log after_win rid0 after_win_room
           reachable_after_win after_win_room_stored).
Defined.

(** X12: in every room of a reachable registry each log entry was made by
    a participant on a cell of the board that is still marked, and no cell
    is logged twice. *)
Theorem move_log_entries (s : Store) (rid : string) (g : GameRoom) :
  reachable s → s !! rid = Some g →
  Forall (λ m, player m ∈ names g ∧
               (0 ≤ row m ≤ 2)%Z ∧ (0 ≤ col m ≤ 2)%Z ∧
               mark_at (board g) (Z.to_nat (row m)) (Z.to_nat (col m)) ≠ "")
         (moves g) ∧
  NoDup ((λ m, (row m, col m)) <$> moves g).
Proof.
  intros Hs Hg.
  destruct (reachable_log_inv s Hs rid g Hg)
    as [_ (p0 & ps & _ & _ & Hall & Hnd)].
  split; [|done]. eapply Forall_impl; [exact Hall|].
  intros m (Hin & Hbnd & Hmark). apply in_bounds_true in Hbnd. tauto.
Qed.

Lemma move_log_entries_witness :
  NoDup ((λ m, (row m, col m)) <$> moves after_win_room).
Proof.
  exact (proj2 (move_log_entries after_win rid0 after_win_room
                  reachable_after_win after_win_room_stored)).
Defined.

(** ** Users and scores *)

Lemma create_user_users_inv s user hashed :
  users_inv s → users_inv (create_user s user hashed).1.
Proof.
  intros (Hc & Hu & Hi). unfold create_user.
  destruct (users s !! uc_username user) as [o0|] eqn:Hnew; [done|].
  split; [simpl; lia|]. split; simpl.
  - intros name o Hl.
    destruct (decide (uc_username user = name)) as [<-|Hne].
    + rewrite lookup_insert_eq in Hl. injection Hl as <-. simpl.
      split; [done|]. split; [lia|]. by rewrite lookup_insert_eq.
    + rewrite lookup_insert_ne in Hl by done.
      destruct (Hu name o Hl) as (Hn & Hb & Hid).
      split; [done|]. split; [lia|].
      rewrite lookup_insert_ne by lia. done.
  - intros i name Hl.
    destruct (decide (user_counter s = i)) as [<-|Hne].
    + rewrite lookup_insert_eq in Hl. injection Hl as <-.
      eexists. by rewrite lookup_insert_eq.
    + rewrite lookup_insert_ne in Hl by done.
      destruct (Hi i name Hl) as (o & Ho & Hid).
      exists o. split; [|done].
      rewrite lookup_insert_ne; [done|]. intros <-. congruence.
Qed.

Lemma zero_entry_ok name : entry_ok name (mkEntry name 0 0 0 0).
Proof. unfold entry_ok. simpl. split; [done | lia]. Qed.

Lemma score_player_ok w draw sc p :
  (∀ n e, sc !! n = Some e → entry_ok n e) →
  ∀ n e, score_player w draw sc p !! n = Some e → entry_ok n e.
Proof.
  intros Hsc n e. unfold score_player.
  destruct (decide (username p = n)) as [<-|Hne].
  2:{ rewrite lookup_insert_ne by done. apply Hsc. }
  rewrite lookup_insert_eq. intros [= <-].
  assert (entry_ok (username p) (entry_of sc (username p))) as Hok.
  { unfold entry_of. destruct (sc !! username p) as [e0|] eqn:He0; simpl.
    - by apply Hsc.
    - apply zero_entry_ok. }
  destruct Hok as (Hn & Hw & Hl & Hd & Hg). unfold entry_ok, bump.
  destruct draw; [|case_bool_decide]; simpl; (split; [done | lia]).
Qed.

Lemma score_player_dom w draw sc p n :
  is_Some (sc !! n) → is_Some (score_player w draw sc p !! n).
Proof.
  intros Hn. unfold score_player.
  destruct (decide (username p = n)) as [<-|Hne].
  - rewrite lookup_insert_eq. eauto.
  - by rewrite lookup_insert_ne.
Qed.

Lemma update_scoreboard_inv s w ps draw :
  scores_inv s → scores_inv (update_scoreboard s w ps draw).
Proof.
  intros [Hok Hdom]. unfold update_scoreboard, scores_inv. simpl.
  revert Hok Hdom. generalize (scores s). clear.
  induction ps as [|p ps IH]; intros sc Hok Hdom; [done|]. simpl.
  apply IH.
  - by apply score_player_ok.
  - intros n Hn. by apply score_player_dom, Hdom.
Qed.

Lemma create_user_scores_inv s user hashed :
  scores_inv s → scores_inv (create_user s user hashed).1.
Proof.
  intros [Hok Hdom]. unfold create_user.
  destruct (users s !! uc_username user) as [o0|] eqn:Hnew; [done|].
  split; simpl.
  - intros n e Hl. destruct (decide (uc_username user = n)) as [<-|Hne].
    + rewrite lookup_insert_eq in Hl. injection Hl as <-. apply zero_entry_ok.
    + rewrite lookup_insert_ne in Hl by done. by apply Hok.
  - intros n Hn. destruct (decide (uc_username user = n)) as [<-|Hne].
    + rewrite lookup_insert_eq. eauto.
    + rewrite lookup_insert_ne in Hn by done.
      rewrite lookup_insert_ne by done. by apply Hdom.
Qed.

Lemma join_game_Ok (gs gs' : Store) rid p game :
  join_game gs rid p = (gs', Ok game) → gs' !! rid = Some game.
Proof.
  unfold join_game. destruct (gs !! rid) as [g|]; [|done].
  destruct (Nat.leb _ _); [done|]. destruct (bool_decide _); [done|].
  destruct (finished g); [done|]. intros [= <- <-]. by rewrite lookup_insert_eq.
Qed.

Lemma join_game_raises (gs gs' : Store) rid p e :
  join_game gs rid p = (gs', inl e) → gs' = gs.
Proof.
  unfold join_game. destruct (gs !! rid) as [g|]; [|by intros [= <-]].
  destruct (Nat.leb _ _); [by intros [= <-]|].
  destruct (bool_decide _); [by intros [= <-]|].
  destruct (finished g); [by intros [= <-]|]. done.
Qed.

(** What the handlers do to the three parts of the store. *)
Lemma register_user_parts s user hashed :
  (Api.register_user s user hashed).1 = (create_user s user hashed).1.
Proof.
  unfold Api.register_user. by destruct (create_user s user hashed) as [s' [[?|]|u]].
Qed.

Lemma api_create_game_parts s nickname user token :
  let s' := (Api.create_game s nickname user token).1 in
  users s' = users s ∧ user_ids s' = user_ids s ∧ scores s' = scores s ∧
  user_counter s' = user_counter s ∧
  (games s' = games s ∨ games s' = (create_game (games s) token user).1).
Proof.
  unfold Api.create_game. destruct (negb _); simpl; auto 10.
Qed.

Lemma api_join_game_parts s rid nickname user :
  reachable (games s) →
  let s' := (Api.join_game s rid nickname user).1 in
  users s' = users s ∧ user_ids s' = user_ids s ∧ scores s' = scores s ∧
  user_counter s' = user_counter s ∧
  (games s' = games s ∨ games s' = (join_game (games s) rid user).1).
Proof.
  intros Hs. unfold Api.join_game. destruct (negb _); simpl; [auto 10|].
  destruct (join_game (games s) rid user) as [gs [e|game]] eqn:Hj.
  - destruct e; simpl; auto 10.
  - simpl. repeat (split; [done|]). right.
    pose proof (reach_join _ rid user Hs) as Hgs. rewrite Hj in Hgs. simpl in Hgs.
    apply join_game_Ok in Hj.
    unfold save_game. rewrite (reachable_keyed gs Hgs rid game Hj).
    by apply insert_id.
Qed.

Lemma api_make_a_move_parts s req user :
  let s' := (Api.make_a_move s req user).1 in
  users s' = users s ∧ user_ids s' = user_ids s ∧
  user_counter s' = user_counter s ∧
  (games s' = games s ∨
   games s' = (move_in_store (games s) (mr_room_id req) (username user)
                 (mr_row req) (mr_col req)).1) ∧
  (scores_inv s → scores_inv s').
Proof.
  unfold Api.make_a_move, move_in_store.
  destruct (get_game (games s) (mr_room_id req)) as [game|]; [|simpl; auto 10].
  destruct (negb _); [simpl; auto 10|].
  destruct (make_move game (username user) (mr_row req) (mr_col req))
    as [game' [e|state]].
  - destruct e; simpl; auto 10.
  - destruct (st_finished state); simpl.
    + repeat (split; [done|]). split; [by right|].
      intros Hsc. by apply update_scoreboard_inv.
    + auto 10.
Qed.

Lemma app_reachable_inv s :
  app_reachable s → users_inv s ∧ scores_inv s ∧ reachable (games s).
Proof.
  induction 1 as [|s user hashed _ (Hu & Hsc & Hg)
                  |s nickname user token _ (Hu & Hsc & Hg)
                  |s rid nickname user _ (Hu & Hsc & Hg)
                  |s req user _ (Hu & Hsc & Hg)].
  - unfold users_inv, scores_inv. simpl.
    split; [|split; [|apply reach_empty]].
    + split; [done|]. split; intros ? ? Hl; by rewrite lookup_empty in Hl.
    + split; [intros ? ? Hl; by rewrite lookup_empty in Hl|].
      intros n [o Hn]. by rewrite lookup_empty in Hn.
  - rewrite register_user_parts.
    split; [by apply create_user_users_inv|].
    split; [by apply create_user_scores_inv|].
    unfold create_user. by destruct (users s !! uc_username user).
  - destruct (api_create_game_parts s nickname user token)
      as (E1 & E2 & E3 & E4 & Eg).
    unfold users_inv, scores_inv. rewrite E1, E2, E3, E4.
    split; [done|]. split; [done|].
    destruct Eg as [-> | ->]; [done | by apply reach_create].
  - destruct (api_join_game_parts s rid nickname user Hg)
      as (E1 & E2 & E3 & E4 & Eg).
    unfold users_inv, scores_inv. rewrite E1, E2, E3, E4.
    split; [done|]. split; [done|].
    destruct Eg as [-> | ->]; [done | by apply reach_join].
  - destruct (api_make_a_move_parts s req user) as (E1 & E2 & E4 & Eg & Esc).
    split; [unfold users_inv; by rewrite E1, E2, E4|].
    split; [by apply Esc|].
    destruct Eg as [-> | ->]; [done | by apply reach_move].
Qed.

Lemma app_reachable_moves s (ms : list (Z * Z * UserPublic)) :
  app_reachable s →
  app_reachable
    (foldl (λ s '(r, c, who),
              (Api.make_a_move s (move_req r c (username who)) who).1) s ms).
Proof.
  revert s. induction ms as [|[[r c] who] ms IH]; intros s Hs; [done|].
  apply IH. by apply app_move.
Qed.

Lemma app_reachable_session_end : app_reachable session_end.
Proof.
  unfold session_end, session_before_win.
  apply app_move, app_reachable_moves.
  unfold session_start. cbv zeta.
  apply app_join, app_create, app_register, app_register, app_init.
Qed.

(** X13: in every store the handlers can produce, users and identifiers
    index each other: a registered user is filed under their own name with
    an identifier between 1 and the counter that leads back to that name,
    every identifier in use belongs to a registered user, and no two users
    share an identifier. *)
Theorem user_ids_index_users (s : InMemoryStore) :
  app_reachable s →
  (∀ name u, get_user s name = Some u →
     username u = name ∧ (1 ≤ id u < user_counter s)%Z ∧
     user_ids s !! id u = Some name) ∧
  (∀ i name, user_ids s !! i = Some name →
     ∃ u, get_user s name = Some u ∧ id u = i) ∧
  (∀ n1 n2 u1 u2, get_user s n1 = Some u1 → get_user s n2 = Some u2 →
     id u1 = id u2 → n1 = n2).
Proof.
  intros Hs. destruct (app_reachable_inv s Hs) as ((Hc & Hu & Hi) & _ & _).
  assert (∀ name u, get_user s name = Some u →
            username u = name ∧ (1 ≤ id u < user_counter s)%Z ∧
            user_ids s !! id u = Some name) as H1.
  { intros name u. unfold get_user.
    destruct (users s !! name) as [o|] eqn:Ho; [|done]. intros [= <-]. simpl.
    destruct (Hu name o Ho) as (_ & Hb & Hid). done. }
  split; [done|]. split.
  - intros i name Hl. destruct (Hi i name Hl) as (o & Ho & Hid).
    exists (mkUser name (obj_id o)). unfold get_user. by rewrite Ho.
  - intros n1 n2 u1 u2 G1 G2 Heq.
    destruct (H1 n1 u1 G1) as (_ & _ & L1).
    destruct (H1 n2 u2 G2) as (_ & _ & L2).
    rewrite Heq in L1. congruence.
Qed.

Lemma user_ids_index_users_witness :
  username alice = "alice" ∧ (1 ≤ id alice < user_counter session_end)%Z ∧
  user_ids session_end !! id alice = Some "alice".
Proof.
  refine (proj1 (user_ids_index_users session_end app_reachable_session_end)
            "alice" alice _).
  vm_compute. reflexivity.
Defined.

(** X14: [create_user] rejects a name that is taken and then changes
    nothing; otherwise it hands out the current counter as identifier,
    after which [get_user] finds exactly that user, [verify_user] accepts
    exactly the passwords that verify against the stored hash, the user
    has an all-zero score entry, and every other user is as before. *)
Theorem create_user_outcome
    (s s' : InMemoryStore) (user : UserCreate) (hashed : string)
    (res : result UserPublic) :
  create_user s user hashed = (s', res) →
  match res with
  | inl e =>
      e = UsernameTaken ∧ s' = s ∧ is_Some (get_user s (uc_username user))
  | inr u =>
      get_user s (uc_username user) = None ∧
      u = mkUser (uc_username user) (user_counter s) ∧
      get_user s' (uc_username user) = Some u ∧
      (∀ pwd_verify password,
         verify_user pwd_verify s' (uc_username user) password
         = if pwd_verify password hashed then Some u else None) ∧
      scores s' !! uc_username user = Some (mkEntry (uc_username user) 0 0 0 0) ∧
      (∀ n, n ≠ uc_username user →
         get_user s' n = get_user s n ∧ scores s' !! n = scores s !! n) ∧
      user_counter s' = (user_counter s + 1)%Z ∧
      games s' = games s
  end.
Proof.
  unfold create_user, get_user, verify_user.
  destruct (users s !! uc_username user) as [o0|] eqn:Hnew.
  - intros [= <- <-]. split; [done|]. split; [done|]. eauto.
  - intros [= <- <-]. simpl. rewrite !lookup_insert_eq. simpl.
    split; [done|]. split; [done|]. split; [done|].
    split; [intros pv pw; by destruct (pv pw hashed)|].
    split; [done|]. split; [|done].
    intros n Hn. by rewrite !lookup_insert_ne.
Qed.

Lemma create_user_outcome_witness :
  UsernameTaken = UsernameTaken ∧ session_end = session_end
  ∧ is_Some (get_user session_end "alice").
Proof.
  refine (create_user_outcome session_end session_end
            (mkUserCreate "alice" "other-secret") "$2b$c" (inl UsernameTaken) _).
  vm_compute. reflexivity.
Defined.

(** X15: in every store the handlers can produce, each score entry is
    filed under its own user name, its counters are non-negative,
    games_played is the sum of wins, losses and draws, and every registered
    user has an entry. *)
Theorem scoreboard_consistent (s : InMemoryStore) :
  app_reachable s →
  (∀ name e, scores s !! name = Some e →
     lb_username e = name ∧
     (0 ≤ wins e)%Z ∧ (0 ≤ losses e)%Z ∧ (0 ≤ draws e)%Z ∧
     games_played e = (wins e + losses e + draws e)%Z) ∧
  (∀ name u, get_user s name = Some u → is_Some (scores s !! name)).
Proof.
  intros Hs. destruct (app_reachable_inv s Hs) as (_ & (Hok & Hdom) & _).
  split; [exact Hok|].
  intros name u. unfold get_user.
  destruct (users s !! name) as [o|] eqn:Ho; [|done]. intros _.
  apply Hdom. eauto.
Qed.

Lemma scoreboard_consistent_witness :
  is_Some (scores session_end !! "alice").
Proof.
  refine (proj2 (scoreboard_consistent session_end app_reachable_session_end)
            "alice" alice _).
  vm_compute. reflexivity.
Defined.

(** ** Updating the scoreboard *)

Lemma foldl_score_player_other w draw ps sc n :
  n ∉ username <$> ps → foldl (score_player w draw) sc ps !! n = sc !! n.
Proof.
  revert sc. induction ps as [|q ps IH]; intros sc Hn; [done|].
  simpl in *. apply not_elem_of_cons in Hn as [Hq Hn].
  rewrite (IH _ Hn). unfold score_player. by rewrite lookup_insert_ne.
Qed.

Lemma foldl_score_player_in w draw ps sc p :
  NoDup (username <$> ps) → p ∈ ps →
  foldl (score_player w draw) sc ps !! username p
  = Some (bump w draw (username p) (entry_of sc (username p))).
Proof.
  revert sc. induction ps as [|q ps IH]; intros sc Hnd Hp.
  { by apply elem_of_nil in Hp. }
  simpl in *. apply NoDup_cons in Hnd as [Hq Hnd].
  apply elem_of_cons in Hp as [->|Hp].
  - rewrite (foldl_score_player_other _ _ _ _ _ Hq).
    unfold score_player. by rewrite lookup_insert_eq.
  - rewrite (IH _ Hnd Hp). do 2 f_equal.
    unfold entry_of, score_player. rewrite lookup_insert_ne; [done|].
    intros Heq. apply Hq. rewrite Heq. by apply list_elem_of_fmap_2.
Qed.

(** X16: for players with pairwise distinct names, [update_scoreboard]
    touches the entries of these players only (starting from an all-zero
    entry for a player without one): each gets one more game played and
    one more draw if the game was a draw, else one more win if the player's
    name is the winner, else one more loss.  Users and rooms are left
    alone. *)
Theorem update_scoreboard_effect
    (s : InMemoryStore) (w : option string) (ps : list UserPublic) (draw : bool) :
  NoDup (username <$> ps) →
  users (update_scoreboard s w ps draw) = users s ∧
  games (update_scoreboard s w ps draw) = games s ∧
  (∀ n, n ∉ username <$> ps →
     scores (update_scoreboard s w ps draw) !! n = scores s !! n) ∧
  (∀ p, p ∈ ps →
     ∃ e', scores (update_scoreboard s w ps draw) !! username p = Some e' ∧
       lb_username e' = lb_username (entry_of (scores s) (username p)) ∧
       games_played e'
       = (games_played (entry_of (scores s) (username p)) + 1)%Z ∧
       (wins e', losses e', draws e')
       = (let e := entry_of (scores s) (username p) in
          if draw then (wins e, losses e, (draws e + 1)%Z)
          else if bool_decide (w = Some (username p))
               then ((wins e + 1)%Z, losses e, draws e)
               else (wins e, (losses e + 1)%Z, draws e))).
Proof.
  intros Hnd. unfold update_scoreboard. simpl.
  split; [done|]. split; [done|]. split.
  - intros n Hn. by apply foldl_score_player_other.
  - intros p Hp. eexists. split; [by apply foldl_score_player_in|].
    unfold bump. destruct draw; [done|].
    destruct (decide (w = Some (username p))) as [->|Hw].
    + by rewrite !bool_decide_eq_true_2.
    + rewrite !bool_decide_eq_false_2 by congruence. done.
Qed.

Lemma update_scoreboard_effect_witness :
  users (update_scoreboard init_store (Some "alice") [alice; bob] false)
  = users init_store.
Proof.
  refine (proj1 (update_scoreboard_effect init_store (Some "alice")
                   [alice; bob] false _)).
  apply NoDup_cons. split; [|apply NoDup_singleton].
  intros Hin. apply list_elem_of_singleton in Hin. discriminate.
Defined.

(** ** The leaderboard *)

Lemma key_leb_true a1 b1 c1 u1 a2 b2 c2 u2 :
  key_leb (a1, b1, c1, u1) (a2, b2, c2, u2) = true ↔
  (a1 < a2 ∨ a1 = a2 ∧
    (b1 < b2 ∨ b1 = b2 ∧
      (c1 < c2 ∨ c1 = c2 ∧ String.leb u1 u2 = true)))%Z.
Proof.
  unfold key_leb.
  destruct (Z.ltb_spec a1 a2); [split; [auto | done]|].
  destruct (Z.ltb_spec a2 a1); [split; [done | lia]|].
  destruct (Z.ltb_spec b1 b2); [split; [intros _; right; split; [lia | auto] | done]|].
  destruct (Z.ltb_spec b2 b1); [split; [done | lia]|].
  destruct (Z.ltb_spec c1 c2);
    [split; [intros _; right; split; [lia|]; right; split; [lia | auto] | done]|].
  destruct (Z.ltb_spec c2 c1); [split; [done | lia]|].
  split.
  - intros Hu. right. split; [lia|]. right. split; [lia|]. right. split; [lia|done].
  - intros [?|[_ [?|[_ [?|[_ ?]]]]]]; lia || done.
Qed.

Lemma string_leb_trans s1 s2 s3 :
  String.leb s1 s2 = true → String.leb s2 s3 = true → String.leb s1 s3 = true.
Proof.
  unfold String.leb. revert s2 s3.
  induction s1 as [|a1 s1 IH]; intros [|a2 s2] [|a3 s3]; simpl; try done.
  unfold Ascii.compare.
  destruct (N.compare_spec (Ascii.N_of_ascii a1) (Ascii.N_of_ascii a2)) as [E12|E12|E12];
    destruct (N.compare_spec (Ascii.N_of_ascii a2) (Ascii.N_of_ascii a3)) as [E23|E23|E23];
    destruct (N.compare_spec (Ascii.N_of_ascii a1) (Ascii.N_of_ascii a3)) as [E13|E13|E13];
    try done; try lia.
  apply IH.
Qed.

#[global] Instance entry_le_total : Total entry_le.
Proof.
  intros [u1 w1 l1 d1 g1] [u2 w2 l2 d2 g2].
  unfold entry_le, sort_key. cbn [wins losses draws lb_username].
  rewrite !key_leb_true.
  destruct (Z.lt_trichotomy (- w1) (- w2)) as [?|[Ea|?]];
    [by left; left | | right; left; lia].
  destruct (Z.lt_trichotomy l1 l2) as [?|[Eb|?]];
    [left; right; split; [done|]; by left |
    | right; right; split; [lia|]; left; lia].
  destruct (Z.lt_trichotomy (- d1) (- d2)) as [?|[Ec|?]];
    [left; right; split; [done|]; right; split; [done|]; by left |
    | right; right; split; [lia|]; right; split; [lia|]; left; lia].
  destruct (String.leb_total u1 u2); [left | right];
    (right; split; [lia|]; right; split; [lia|]; right; split; [lia|]; done).
Qed.

#[global] Instance entry_le_trans : Transitive entry_le.
Proof.
  intros [u1 w1 l1 d1 g1] [u2 w2 l2 d2 g2] [u3 w3 l3 d3 g3].
  unfold entry_le, sort_key. cbn [wins losses draws lb_username].
  rewrite !key_leb_true.
  intros H12 H23.
  assert (String.leb u1 u2 = true → String.leb u2 u3 = true →
          String.leb u1 u3 = true) as Htr by apply string_leb_trans.
  destruct H12 as [?|[? [?|[? [?|[? ?]]]]]];
    destruct H23 as [?|[? [?|[? [?|[? ?]]]]]];
    solve [ left; lia
          | right; split; [lia|]; left; lia
          | right; split; [lia|]; right; split; [lia|]; left; lia
          | right; split; [lia|]; right; split; [lia|]; right; split; [lia|];
            auto ].
Qed.

Lemma entry_le_spelled e1 e2 :
  entry_le e1 e2 ↔
  (wins e2 < wins e1 ∨ wins e1 = wins e2 ∧
    (losses e1 < losses e2 ∨ losses e1 = losses e2 ∧
      (draws e2 < draws e1 ∨ draws e1 = draws e2 ∧
        String.leb (lb_username e1) (lb_username e2) = true)))%Z.
Proof.
  unfold entry_le, sort_key. rewrite key_leb_true.
  split.
  - intros [?|[? [?|[? [?|[? ?]]]]]];
      solve [ left; lia
            | right; split; [lia|]; left; lia
            | right; split; [lia|]; right; split; [lia|]; left; lia
            | right; split; [lia|]; right; split; [lia|]; right; split; [lia|];
              auto ].
  - intros [?|[? [?|[? [?|[? ?]]]]]];
      solve [ left; lia
            | right; split; [lia|]; left; lia
            | right; split; [lia|]; right; split; [lia|]; left; lia
            | right; split; [lia|]; right; split; [lia|]; right; split; [lia|];
              auto ].
Qed.

Lemma elem_of_scores_values (sc : gmap string LeaderboardEntry) e :
  e ∈ (map_to_list sc).*2 ↔ ∃ n, sc !! n = Some e.
Proof.
  rewrite list_elem_of_fmap. split.
  - intros ([n e'] & -> & Hin). exists n. by apply elem_of_map_to_list.
  - intros [n Hn]. exists (n, e). split; [done|]. by apply elem_of_map_to_list.
Qed.

(** X17: [get_leaderboard] returns every score entry exactly once, ordered
    so that an entry comes before another only if it has more wins, or as
    many wins and fewer losses, or also as many losses and more draws, or
    also as many draws and a user name that is not greater. *)
Theorem leaderboard_sorted (s : InMemoryStore) :
  StronglySorted entry_le (get_leaderboard s) ∧
  get_leaderboard s ≡ₚ (map_to_list (scores s)).*2 ∧
  (∀ e, e ∈ get_leaderboard s ↔ ∃ n, scores s !! n = Some e) ∧
  length (get_leaderboard s) = size (scores s) ∧
  (∀ e1 e2, entry_le e1 e2 ↔
    (wins e2 < wins e1 ∨ wins e1 = wins e2 ∧
      (losses e1 < losses e2 ∨ losses e1 = losses e2 ∧
        (draws e2 < draws e1 ∨ draws e1 = draws e2 ∧
          String.leb (lb_username e1) (lb_username e2) = true)))%Z).
Proof.
  unfold get_leaderboard.
  pose proof (merge_sort_Permutation entry_le (map_to_list (scores s)).*2) as Hp.
  split; [apply (StronglySorted_merge_sort entry_le)|].
  split; [done|]. split; [|split].
  - intros e. rewrite Hp. apply elem_of_scores_values.
  - rewrite Hp, length_fmap. apply length_map_to_list.
  - apply entry_le_spelled.
Qed.

(** X18: in a store the handlers can produce, no two entries have the same
    sort key, so the leaderboard is the only sorted arrangement of the
    score entries: whatever order the dictionary hands them out in, sorting
    yields this list. *)
Theorem leaderboard_unique (s : InMemoryStore) (l : list LeaderboardEntry) :
  app_reachable s →
  l ≡ₚ (map_to_list (scores s)).*2 → Sorted entry_le l →
  l = get_leaderboard s.
Proof.
  intros Hs Hperm Hsorted.
  destruct (app_reachable_inv s Hs) as (_ & (Hok & _) & _).
  unfold get_leaderboard.
  apply (Sorted_unique_strong entry_le); [|done| |].
  - intros e1 e2 H1 H2 H12 H21.
    rewrite Hperm in H1. rewrite merge_sort_Permutation in H2.
    apply elem_of_scores_values in H1 as [n1 L1].
    apply elem_of_scores_values in H2 as [n2 L2].
    destruct (Hok _ _ L1) as (N1 & _). destruct (Hok _ _ L2) as (N2 & _).
    apply entry_le_spelled in H12, H21.
    assert (String.leb (lb_username e1) (lb_username e2) = true ∧
            String.leb (lb_username e2) (lb_username e1) = true) as [U12 U21].
    { destruct H12 as [?|[? [?|[? [?|[? ?]]]]]];
        destruct H21 as [?|[? [?|[? [?|[? ?]]]]]]; try lia. done. }
    pose proof (String.leb_antisym _ _ U12 U21) as Heq.
    rewrite N1, N2 in Heq. subst n2. congruence.
  - apply (Sorted_merge_sort entry_le).
  - by rewrite merge_sort_Permutation.
Qed.

Lemma leaderboard_unique_witness :
  [mkEntry "alice" 0 1 0 1; mkEntry "bob" 0 1 0 1] = get_leaderboard session_end.
Proof.
  refine (leaderboard_unique session_end _ app_reachable_session_end _ _).
  - vm_compute. reflexivity.
  - repeat constructor.
Defined.

(** ** The move handler *)

Lemma make_move_ValueError_unchanged g u r c g' msg :
  make_move g u r c = (g', raise (ValueError msg)) → g' = g.
Proof.
  unfold make_move.
  destruct (finished g); [by intros [= <-]|].
  destruct (negb (is_next u g)); [by intros [= <-]|].
  destruct (negb (in_bounds r c)); [by intros [= <-]|].
  destruct (cell _ _ _) as [|v]; [by intros [= <-]|].
  destruct (truthy v); [by intros [= <-]|].
  destruct (index _ _) as [|p0]; [by intros [= <-]|].
  destruct (check_winner _) as [e|[w fin]] eqn:Hw; [|done].
  apply check_winner_raises in Hw as ->. done.
Qed.

(** On a well-formed room the only exceptions of [make_move] are its own
    four. *)
Lemma make_move_wf_raises g u r c g' e :
  is_3x3 (board g) → players g ≠ [] →
  make_move g u r c = (g', inl e) → ∃ msg, e = ValueError msg.
Proof.
  intros H3 Hp. unfold make_move.
  destruct (finished g); [intros [= <- <-]; by eexists|].
  destruct (negb (is_next u g)); [intros [= <- <-]; by eexists|].
  destruct (in_bounds r c) eqn:Hb; simpl; [|intros [= <- <-]; by eexists].
  destruct (in_bounds_nat r c Hb) as [Hr Hc].
  rewrite (cell_3x3 _ _ _ H3 Hr Hc). unfold Ok.
  destruct (truthy _); [intros [= <- <-]; by eexists|].
  destruct (players g) as [|p0 ps]; [done|]. simpl.
  match goal with
  | |- context [check_winner ?b] =>
      destruct (check_winner_3x3_Ok b) as (w & fin & ->)
  end; [by apply place_3x3 | done].
Qed.

Lemma set_games_same s : set_games (games s) s = s.
Proof. by destruct s. Qed.

(** X19: a move request answered with an HTTP error leaves the whole store
    as it was.  The error is 404 when the room does not exist, else 403
    when the caller is not a participant of the room, else 400 carrying the
    message of the error [make_move] raised. *)
Theorem make_a_move_rejections
    (s s' : InMemoryStore) (req : MoveRequest) (user : UserPublic)
    (code : Z) (detail : string) :
  Api.make_a_move s req user = (s', HTTPException code detail) →
  s' = s ∧
  ((code = 404%Z ∧ detail = "No such room" ∧
    get_game (games s) (mr_room_id req) = None) ∨
   ∃ g, get_game (games s) (mr_room_id req) = Some g ∧
     ((code = 403%Z ∧ detail = "You are not a player in this room" ∧
       (username user ∉ names g)) ∨
      (code = 400%Z ∧ (username user ∈ names g) ∧
       make_move g (username user) (mr_row req) (mr_col req)
       = (g, raise (ValueError detail))))).
Proof.
  unfold Api.make_a_move.
  destruct (get_game (games s) (mr_room_id req)) as [g|] eqn:Hg.
  2:{ intros [= <- <- <-]. split; [done|]. by left. }
  case_bool_decide as Hin; simpl.
  2:{ intros [= <- <- <-]. split; [done|]. right. exists g.
      split; [done|]. by left. }
  destruct (make_move g (username user) (mr_row req) (mr_col req))
    as [g' [e|state]] eqn:Hm.
  2:{ by destruct (st_finished state). }
  destruct e as [msg|]; [|done]. intros [= <- <- <-].
  apply make_move_ValueError_unchanged in Hm as Heq. subst g'.
  unfold get_game in Hg. rewrite (insert_id _ _ _ Hg), set_games_same.
  split; [done|]. right. exists g. split; [done|]. right. done.
Qed.

Lemma make_a_move_rejections_witness :
  session_end = session_end.
Proof.
  refine (proj1 (make_a_move_rejections session_end session_end
                   (move_req 1 0 "bob") bob 400 "Game already finished." _)).
  vm_compute. reflexivity.
Defined.

(** X20: in a store the handlers can produce, a move request never fails
    with an exception the handler does not catch: it is answered with an
    HTTP error or with the new state. *)
Theorem make_a_move_never_crashes
    (s : InMemoryStore) (req : MoveRequest) (user : UserPublic) :
  app_reachable s →
  ∀ e, (Api.make_a_move s req user).2 ≠ Unhandled e.
Proof.
  intros Hs e. destruct (app_reachable_inv s Hs) as (_ & _ & Hg).
  unfold Api.make_a_move.
  destruct (get_game (games s) (mr_room_id req)) as [g|] eqn:Hl; [|done].
  destruct (negb _); [done|].
  destruct (reachable_room_inv _ Hg _ g Hl) as (H3 & p0 & ps & Hp & _).
  destruct (make_move g (username user) (mr_row req) (mr_col req))
    as [g' [e'|state]] eqn:Hm.
  - apply make_move_wf_raises in Hm as [msg ->]; [done|done|].
    by rewrite Hp.
  - by destruct (st_finished state).
Qed.

Lemma make_a_move_never_crashes_witness :
  app_reachable session_end ∧
  (Api.make_a_move session_end (move_req 7 7 "bob") bob).2 ≠ Unhandled IndexError.
Proof.
  split; [exact app_reachable_session_end|].
  exact (make_a_move_never_crashes session_end (move_req 7 7 "bob") bob
           app_reachable_session_end IndexError).
Defined.

(** The store after an accepted move request. *)
Lemma make_a_move_Return s s' req user st :
  app_reachable s →
  Api.make_a_move s req user = (s', Return st) →
  ∃ g g',
    games s !! mr_room_id req = Some g ∧
    (username user ∈ names g) ∧
    make_move g (username user) (mr_row req) (mr_col req) = (g', Ok st) ∧
    players g' = players g ∧ NoDup (names g) ∧ marks_inv g' ∧
    winner g' = st_winner st ∧
    s' = (if st_finished st
          then update_scoreboard
                 (set_games (<[mr_room_id req := g']> (games s)) s)
                 (st_winner st) (players g)
                 (bool_decide (st_winner st = None))
          else set_games (<[mr_room_id req := g']> (games s)) s).
Proof.
  intros Hs. destruct (app_reachable_inv s Hs) as (_ & _ & Hg).
  unfold Api.make_a_move, get_game.
  destruct (games s !! mr_room_id req) as [g|] eqn:Hl; [|done].
  case_bool_decide as Hin; simpl; [|done].
  destruct (make_move g (username user) (mr_row req) (mr_col req))
    as [g' [e|state]] eqn:Hm; [by destruct e|].
  intros Heq. exists g, g'.
  pose proof (make_move_players g (username user) (mr_row req) (mr_col req)) as Hp.
  pose proof (make_move_room_id g (username user) (mr_row req) (mr_col req)) as Hid.
  pose proof (marks_inv_move g (username user) (mr_row req) (mr_col req)
                (reachable_marks_inv _ Hg _ _ Hl)) as Hmk.
  rewrite Hm in Hp, Hid, Hmk. simpl in Hp, Hid, Hmk.
  destruct (reachable_room_ok _ Hg _ _ Hl) as (_ & Hnd & _).
  assert (winner g' = st_winner state) as Hw.
  { apply make_move_Ok in Hm as (_ & _ & _ & _ & w & fin & _ & _ & -> & ->).
    done. }
  assert (save_game (<[mr_room_id req := g']> (games s)) g'
          = <[mr_room_id req := g']> (games s)) as Hsave.
  { unfold save_game.
    rewrite Hid, (reachable_keyed _ Hg _ _ Hl). apply insert_insert_eq. }
  unfold set_games in Heq. simpl in Heq. rewrite Hsave, Hp in Heq.
  destruct (st_finished state) eqn:Hf; injection Heq as <- <-;
    rewrite ?Hf; repeat (split; [done|]); done.
Qed.

(** X21: in a store the handlers can produce, an accepted move request
    stores the room that [make_move] produced, which [get_game_state] then
    reads back as the returned state, and touches no user.  The scoreboard
    changes only when the move ended the game, and then only in the entries
    of the room's participants, each of which is updated once. *)
Theorem make_a_move_accepted
    (s s' : InMemoryStore) (req : MoveRequest) (user : UserPublic)
    (st : GameState) :
  app_reachable s →
  Api.make_a_move s req user = (s', Return st) →
  ∃ g g',
    games s !! mr_room_id req = Some g ∧
    make_move g (username user) (mr_row req) (mr_col req) = (g', Ok st) ∧
    games s' = <[mr_room_id req := g']> (games s) ∧
    get_game_state (games s') (mr_room_id req) = Some st ∧
    users s' = users s ∧ user_ids s' = user_ids s ∧
    (st_finished st = false → scores s' = scores s) ∧
    (st_finished st = true →
       (∀ n, n ∉ names g → scores s' !! n = scores s !! n) ∧
       (∀ p, p ∈ players g →
          scores s' !! username p
          = Some (bump (st_winner st) (bool_decide (st_winner st = None))
                    (username p) (entry_of (scores s) (username p))))).
Proof.
  intros Hs Hm.
  destruct (make_a_move_Return s s' req user st Hs Hm)
    as (g & g' & Hl & _ & Hmove & Hp & Hnd & _ & Hw & ->).
  exists g, g'. split; [done|]. split; [done|].
  assert (get_game_state (<[mr_room_id req := g']> (games s)) (mr_room_id req)
          = Some st) as Hread.
  { unfold get_game_state, get_game. rewrite lookup_insert_eq.
    apply make_move_Ok in Hmove as (_ & _ & _ & _ & w & fin & _ & Hcw & -> & ->).
    simpl. destruct fin; [done|].
    by apply check_winner_unfinished in Hcw as ->. }
  destruct (st_finished st) eqn:Hf; simpl.
  - repeat (split; [done|]). intros _. split.
    + intros n Hn. by apply foldl_score_player_other.
    + intros p Hin. by apply foldl_score_player_in.
  - repeat (split; [done|]). done.
Qed.

Lemma session_end_move :
  Api.make_a_move session_before_win (move_req 0 2 "alice") alice
  = (session_end, Return win_state).
Proof. vm_compute. reflexivity. Qed.

Lemma app_reachable_session_before_win : app_reachable session_before_win.
Proof.
  unfold session_before_win. apply app_reachable_moves.
  unfold session_start. cbv zeta.
  apply app_join, app_create, app_register, app_register, app_init.
Qed.

Lemma make_a_move_accepted_witness :
  ∃ g g',
    games session_before_win !! rid0 = Some g ∧
    make_move g "alice" 0 2 = (g', Ok win_state) ∧
    games session_end = <[rid0 := g']> (games session_before_win) ∧
    get_game_state (games session_end) rid0 = Some win_state ∧
    users session_end = users session_before_win ∧
    user_ids session_end = user_ids session_before_win ∧
    (st_finished win_state = false →
     scores session_end = scores session_before_win) ∧
    (st_finished win_state = true →
       (∀ n, n ∉ names g →
          scores session_end !! n = scores session_before_win !! n) ∧
       (∀ p, p ∈ players g →
          scores session_end !! username p
          = Some (bump (st_winner win_state)
                    (bool_decide (st_winner win_state = None))
                    (username p)
                    (entry_of (scores session_before_win) (username p))))).
Proof.
  exact (make_a_move_accepted session_before_win session_end
           (move_req 0 2 "alice") alice win_state
           app_reachable_session_before_win session_end_move).
Defined.

(** X22: in a store the handlers can produce, the winner a finishing move
    reports is absent or one of the marks "X" and "O".  On a draw every
    participant is credited a draw; on a win every participant whose user
    name is not that mark is credited a loss, and nobody else a win. *)
Theorem finishing_move_scores
    (s s' : InMemoryStore) (req : MoveRequest) (user : UserPublic)
    (st : GameState) :
  app_reachable s →
  Api.make_a_move s req user = (s', Return st) →
  st_finished st = true →
  (st_winner st = None ∨ st_winner st = Some "X" ∨ st_winner st = Some "O") ∧
  ∀ g p, games s !! mr_room_id req = Some g → p ∈ players g →
    ∃ e', scores s' !! username p = Some e' ∧
      games_played e'
      = (games_played (entry_of (scores s) (username p)) + 1)%Z ∧
      (st_winner st = None →
         draws e' = (draws (entry_of (scores s) (username p)) + 1)%Z ∧
         wins e' = wins (entry_of (scores s) (username p)) ∧
         losses e' = losses (entry_of (scores s) (username p))) ∧
      (st_winner st ≠ None → st_winner st ≠ Some (username p) →
         losses e' = (losses (entry_of (scores s) (username p)) + 1)%Z ∧
         wins e' = wins (entry_of (scores s) (username p)) ∧
         draws e' = draws (entry_of (scores s) (username p))).
Proof.
  intros Hs Hm Hfin.
  destruct (make_a_move_Return s s' req user st Hs Hm)
    as (g & g' & Hl & _ & Hmove & Hp & Hnd & (_ & _ & Hmk) & Hw & ->).
  rewrite Hfin. split; [by rewrite <- Hw|].
  intros g0 p Hl0 Hin. rewrite Hl in Hl0. injection Hl0 as <-.
  eexists. split.
  { unfold update_scoreboard. simpl. by apply foldl_score_player_in. }
  clear Hm. unfold bump. destruct (st_winner st) as [m|] eqn:Hwin.
  - rewrite (bool_decide_eq_false_2 (Some m = None)) by done.
    destruct (decide (Some (username p) = Some m)) as [Heq|Hne'].
    + rewrite (bool_decide_eq_true_2 _ Heq). simpl.
      split; [done|]. split; [done|]. intros _ Hne. by destruct Hne.
    + rewrite (bool_decide_eq_false_2 _ Hne'). simpl.
      split; [done|]. split; [done|]. done.
  - rewrite (bool_decide_eq_true_2 (None = None)) by done. simpl.
    split; [done|]. split; [done|]. intros Hne. by destruct Hne.
Qed.

Lemma finishing_move_scores_witness :
  st_winner win_state = None ∨ st_winner win_state = Some "X"
  ∨ st_winner win_state = Some "O".
Proof.
  exact (proj1 (finishing_move_scores session_before_win session_end
                  (move_req 0 2 "alice") alice win_state
                  app_reachable_session_before_win session_end_move eq_refl)).
Defined.

(** ** The connection manager *)

Lemma subscribers_disconnect m rid ws rid' :
  subscribers (disconnect m rid ws) rid'
  = if decide (rid' = rid) then filter (λ w, w ≠ ws) (subscribers m rid')
    else subscribers m rid'.
Proof.
  unfold disconnect, subscribers.
  destruct (decide (rid' = rid)) as [->|Hne].
  - destruct (m !! rid) as [l|] eqn:Hl.
    + by rewrite lookup_insert_eq.
    + by rewrite Hl.
  - destruct (m !! rid) as [l|] eqn:Hl; [|done].
    by rewrite lookup_insert_ne by done.
Qed.

Lemma filter_all {A} (P : A → Prop) `{!∀ x, Decision (P x)} (l : list A) :
  (∀ x, x ∈ l → P x) → filter P l = l.
Proof.
  induction l as [|x l IH]; intros Hall; [done|].
  rewrite filter_cons_True by (apply Hall; apply elem_of_cons; by left).
  f_equal. apply IH. intros y Hy. apply Hall. apply elem_of_cons. by right.
Qed.

(** X23: [disconnect] removes every registration of the socket from the
    room and nothing else: the other sockets of the room keep their
    registrations in their order, the other rooms are untouched, no room
    loses its key, and a second call changes nothing. *)
Theorem disconnect_removes_socket
    (m : Connections) (rid : string) (ws : WebSocket) :
  (ws ∉ subscribers (disconnect m rid ws) rid) ∧
  (∀ w, w ≠ ws →
     filter (λ x, x = w) (subscribers (disconnect m rid ws) rid)
     = filter (λ x, x = w) (subscribers m rid)) ∧
  subscribers (disconnect m rid ws) rid `sublist_of` subscribers m rid ∧
  (∀ rid', rid' ≠ rid → disconnect m rid ws !! rid' = m !! rid') ∧
  (∀ rid', is_Some (disconnect m rid ws !! rid') ↔ is_Some (m !! rid')) ∧
  disconnect (disconnect m rid ws) rid ws = disconnect m rid ws.
Proof.
  split; [|split; [|split; [|split; [|split]]]].
  - rewrite subscribers_disconnect, decide_True by done.
    intros [Hne _]%list_elem_of_filter. by apply Hne.
  - intros w Hw. rewrite subscribers_disconnect, decide_True by done.
    rewrite list_filter_filter. apply list_filter_iff.
    intros x. split; [by intros [? _]|]. intros ->. by split.
  - rewrite subscribers_disconnect, decide_True by done.
    apply sublist_filter.
  - intros rid' Hne. unfold disconnect.
    destruct (m !! rid) as [l|]; [|done]. by rewrite lookup_insert_ne.
  - intros rid'. unfold disconnect.
    destruct (m !! rid) as [l|] eqn:Hl; [|done].
    destruct (decide (rid' = rid)) as [->|Hne].
    + rewrite lookup_insert_eq, Hl. split; intros _; by eexists.
    + by rewrite lookup_insert_ne by done.
  - unfold disconnect. destruct (m !! rid) as [l|] eqn:Hl.
    + rewrite lookup_insert_eq, insert_insert_eq. f_equal.
      apply list_filter_filter_r. done.
    + by rewrite Hl.
Qed.

(** X24: registering a socket that the room does not hold and removing it
    again gives every room its former sockets; the room keeps a key even if
    it had none before. *)
Theorem connect_then_disconnect
    (m : Connections) (rid : string) (ws : WebSocket) :
  ws ∉ subscribers m rid →
  (∀ rid', subscribers (disconnect (connect m rid ws) rid ws) rid'
           = subscribers m rid') ∧
  disconnect (connect m rid ws) rid ws !! rid = Some (subscribers m rid).
Proof.
  intros Hnew.
  assert (filter (λ w, w ≠ ws) (subscribers m rid ++ [ws]) = subscribers m rid)
    as Hf.
  { rewrite filter_app, filter_all.
    - rewrite filter_cons_False by (intros H; by apply H). apply app_nil_r.
    - intros x Hx ->. by apply Hnew. }
  split.
  - intros rid'. rewrite subscribers_disconnect.
    destruct (decide (rid' = rid)) as [->|Hne].
    + unfold connect, subscribers at 1. rewrite lookup_insert_eq. simpl.
      exact Hf.
    + unfold connect, subscribers. by rewrite lookup_insert_ne by done.
  - unfold disconnect, connect. rewrite lookup_insert_eq, insert_insert_eq.
    rewrite lookup_insert_eq. f_equal. exact Hf.
Qed.

Lemma connect_then_disconnect_witness :
  disconnect (connect no_connections rid0 7) rid0 7 !! rid0 = Some [].
Proof.
  refine (proj2 (connect_then_disconnect no_connections rid0 7 _)).
  vm_compute. intros H. inversion H.
Defined.

Lemma send_all_ok send k l :
  (∀ i, i < length l → send (k + i) = true) → send_all send k l = (l, []).
Proof.
  revert k. induction l as [|ws l IH]; intros k H; [done|].
  simpl. rewrite IH.
  - specialize (H 0). rewrite Nat.add_0_r in H. rewrite H; [done|simpl; lia].
  - intros i Hi. replace (S k + i) with (k + S i) by lia. apply H. simpl. lia.
Qed.



(** X25: if every send returns, [broadcast] serves the sockets of the room
    in the order of their registration, once per registration, leaves the
    manager as it was and completes. *)
Theorem broadcast_all_delivered
    (send : nat → bool) (m : Connections) (rid : string) :
  (∀ i, i < length (subscribers m rid) → send i = true) →
  broadcast send m rid = (m, subscribers m rid, Completed).
Proof.
  unfold broadcast, subscribers. intros H.
  destruct (m !! rid) as [l|]; [|done]. simpl in H.
  by rewrite (send_all_ok send 0 l H).
Qed.

Lemma broadcast_all_delivered_witness :
  broadcast (λ _, true) sample_connections rid0
  = (sample_connections, [7; 8; 7]%Z, Completed).
Proof.
  refine (broadcast_all_delivered (λ _, true) sample_connections rid0 _).
  intros i _. reflexivity.
Defined.



(** ** The history of finished games *)

Lemma elem_of_list_games s g :
  g ∈ list_games s ↔ ∃ rid, games s !! rid = Some g.
Proof.
  unfold list_games. rewrite list_elem_of_fmap. split.
  - intros ([k g'] & -> & Hkg%elem_of_map_to_list). by exists k.
  - intros (k & Hk). exists (k, g). split; [done|].
    by apply elem_of_map_to_list.
Qed.

Lemma NoDup_room_ids (P : GameRoom → Prop) `{!∀ g, Decision (P g)}
    (l : list (string * GameRoom)) :
  NoDup l.*1 → (∀ k g, (k, g) ∈ l → room_id g = k) →
  NoDup (room_id <$> filter P l.*2).
Proof.
  induction l as [|[k g] l IH]; intros Hnd Hkey; [constructor|].
  cbn [fmap list_fmap fst snd] in Hnd |- *.
  apply NoDup_cons in Hnd as [Hk Hnd].
  assert (NoDup (room_id <$> filter P l.*2)) as Hrest.
  { apply IH; [done|]. intros k' g' Hin. apply Hkey.
    apply elem_of_cons. by right. }
  rewrite filter_cons. destruct (decide (P g)); [|done].
  cbn [fmap list_fmap]. apply NoDup_cons. split; [|done].
  intros (g' & Hid & Hg')%list_elem_of_fmap.
  apply list_elem_of_filter in Hg' as [_ Hg'].
  apply list_elem_of_fmap in Hg' as ([k' g''] & -> & Hin).
  cbn [snd] in Hid. apply Hk.
  rewrite (Hkey k g) in Hid by (apply elem_of_cons; by left).
  rewrite (Hkey k' g'') in Hid by (apply elem_of_cons; by right).
  subst k'. apply list_elem_of_fmap. by exists (k, g'').
Qed.

(** X27: in a store the handlers can produce, the history holds exactly
    the summaries of the finished rooms of the registry, one per room
    identifier; every entry is marked finished, names one or two players,
    and its winner is absent or one of the marks "X" and "O". *)
Theorem history_lists_finished_rooms (s : InMemoryStore) :
  app_reachable s →
  (∀ e, e ∈ get_game_history s ↔
        ∃ g, games s !! gs_room_id e = Some g ∧ finished g = true
             ∧ e = summary g) ∧
  NoDup (gs_room_id <$> get_game_history s) ∧
  (∀ e, e ∈ get_game_history s →
        gs_finished e = true ∧
        1 ≤ length (gs_players e) ≤ 2 ∧
        (gs_winner e = None ∨ gs_winner e = Some "X"
         ∨ gs_winner e = Some "O")).
Proof.
  intros Hs. destruct (app_reachable_inv s Hs) as (_ & _ & Hg).
  pose proof (reachable_keyed _ Hg) as Hkey.
  assert (∀ e, e ∈ get_game_history s ↔
               ∃ g, games s !! gs_room_id e = Some g ∧ finished g = true
                    ∧ e = summary g) as Hmem.
  { intros e. unfold get_game_history. rewrite list_elem_of_fmap. split.
    - intros (g & -> & Hin). apply list_elem_of_filter in Hin as [Hfin Hin].
      apply elem_of_list_games in Hin as [k Hk].
      exists g. cbn [summary gs_room_id].
      by rewrite (Hkey k g Hk).
    - intros (g & Hl & Hfin & ->). exists g. split; [done|].
      apply list_elem_of_filter. split; [done|].
      apply elem_of_list_games. by eexists. }
  split; [exact Hmem|]. split.
  - unfold get_game_history, list_games.
    rewrite <- list_fmap_compose.
    rewrite (list_fmap_ext (gs_room_id ∘ summary) room_id) by done.
    apply NoDup_room_ids; [apply NoDup_fst_map_to_list|].
    intros k g Hin%elem_of_map_to_list. by apply Hkey.
  - intros e (g & Hl & Hfin & ->)%Hmem. cbn [summary gs_room_id] in Hl.
    cbn [summary gs_finished gs_players gs_winner].
    split; [done|]. split.
    + destruct (reachable_room_ok _ Hg _ _ Hl) as (Hlen & _).
      unfold names. by rewrite length_fmap.
    + destruct (winner g) as [w|] eqn:Hw; [|by left].
      right. destruct (winner_is_a_mark _ _ _ _ Hg Hl Hw) as [->| ->]; auto.
Qed.

Lemma history_lists_finished_rooms_witness :
  NoDup (gs_room_id <$> get_game_history session_end).
Proof.
  exact (proj1 (proj2 (history_lists_finished_rooms session_end
                         app_reachable_session_end))).
Defined.
